(** * Security-Tools-Suite: the TCP port scanner (port_scanner.py)

    A shallow embedding of [PortScanner.scan_port], [PortScanner.run] and of
    the port-specification parsing done in [main], followed by the properties
    of the specification that concern them.

    Conventions of the embedding.
    - Python [int] is [Z], [str] is [string] (ASCII text), a [list] is a
      [list], a [dict] with string keys is a [gmap string PyVal].
    - The [socket] module and the thread pool are the environment.  What a
      socket call does (return a value or raise) is read from a
      [SocketLayer]; the order in which the pool runs the submitted tasks is
      a schedule.  Theorems quantify over both.
    - Code that can raise returns an [outcome]; code that mutates [self] or
      touches sockets runs in the monad [M] over a [World]. *)

From Stdlib Require Import ZArith String Ascii List Lia Permutation.
From stdpp Require Import base option list gmap strings pretty sorting.

Local Open Scope Z_scope.

(* ===================================================================== *)
(** ** Python values, exceptions and outcomes *)
(* ===================================================================== *)

(** The values stored in the result dictionaries: port numbers and text. *)
Inductive PyVal : Type :=
| VInt (z : Z)
| VStr (s : string).

#[global] Instance PyVal_eq_dec : EqDecision PyVal.
Proof. solve_decision. Defined.

(** The exceptions [scan_port] distinguishes: its first handler catches
    [socket.timeout], its second any other [Exception]. *)
Inductive PyExn : Type :=
| socket_timeout (msg : string)
| Exception (msg : string).

(** [str(e)] *)
Definition str (e : PyExn) : string :=
  match e with
  | socket_timeout msg => msg
  | Exception msg => msg
  end.

(** What a call does: it returns a value or raises. *)
Inductive outcome (A : Type) : Type :=
| Returns (a : A)
| Raises (e : PyExn).
Arguments Returns {A} a.
Arguments Raises {A} e.

Definition returned {A} (o : outcome A) : bool :=
  match o with Returns _ => true | Raises _ => false end.

(* ===================================================================== *)
(** ** The environment of one probe: the socket layer *)
(* ===================================================================== *)

(** The four socket calls of [scan_port], lines 52-55, each with the outcome
    the operating system gives it for this probe. *)
Record SocketLayer : Type := {
  socket_socket : outcome unit;             (* socket.socket(AF_INET, SOCK_STREAM) *)
  settimeout : Z -> outcome unit;           (* sock.settimeout(timeout) *)
  connect_ex : string -> Z -> outcome Z;    (* sock.connect_ex((target, port)) *)
  close : outcome unit                      (* sock.close() *)
}.

(** The log of socket calls, with whether each one returned. *)
Inductive SockCall : Type :=
| CallSocket
| CallSetTimeout (t : Z)
| CallConnectEx (host : string) (port : Z)
| CallClose.

#[global] Instance SockCall_eq_dec : EqDecision SockCall.
Proof. solve_decision. Defined.

Record LogEntry : Type := { call : SockCall; ok : bool }.

#[global] Instance LogEntry_eq_dec : EqDecision LogEntry.
Proof. solve_decision. Defined.

(** Sockets opened: the [socket.socket] calls that returned. *)
Definition opened (log : list LogEntry) : nat :=
  length (filter (fun e => call e = CallSocket /\ ok e = true) log).

(** Sockets closed by the code: the [sock.close] calls made. *)
Definition closed (log : list LogEntry) : nat :=
  length (filter (fun e => call e = CallClose) log).

(* ===================================================================== *)
(** ** The scanner object *)
(* ===================================================================== *)

Record PortScanner : Type := {
  target : string;
  ports : list Z;
  timeout : Z;
  threads : Z;
  open_ports : list Z;
  closed_ports : list Z;
  filtered_ports : list Z
}.

(** [PortScanner.__init__], lines 23-39. *)
Definition init (target : string) (ports : list Z) (timeout threads : Z)
  : PortScanner :=
  {| target := target; ports := ports; timeout := timeout; threads := threads;
     open_ports := []; closed_ports := []; filtered_ports := [] |}.

(** [self.open_ports.append(port)] and its two siblings. *)
Definition append_open (port : Z) (self : PortScanner) : PortScanner :=
  {| target := target self; ports := ports self; timeout := timeout self;
     threads := threads self;
     open_ports := open_ports self ++ [port];
     closed_ports := closed_ports self;
     filtered_ports := filtered_ports self |}.

Definition append_closed (port : Z) (self : PortScanner) : PortScanner :=
  {| target := target self; ports := ports self; timeout := timeout self;
     threads := threads self;
     open_ports := open_ports self;
     closed_ports := closed_ports self ++ [port];
     filtered_ports := filtered_ports self |}.

Definition append_filtered (port : Z) (self : PortScanner) : PortScanner :=
  {| target := target self; ports := ports self; timeout := timeout self;
     threads := threads self;
     open_ports := open_ports self;
     closed_ports := closed_ports self;
     filtered_ports := filtered_ports self ++ [port] |}.

(* ===================================================================== *)
(** ** The monad of the scanner's methods *)
(* ===================================================================== *)

(** The state a method can change: the scanner object and the socket log. *)
Definition World : Type := PortScanner * list LogEntry.

Definition M (A : Type) : Type := World -> outcome A * World.

Definition ret {A} (a : A) : M A := fun w => (Returns a, w).

Definition bind {A B} (m : M A) (k : A -> M B) : M B :=
  fun w =>
    match m w with
    | (Returns a, w') => k a w'
    | (Raises e, w') => (Raises e, w')
    end.

Notation "x <- m ;; k" := (bind m (fun x => k))
  (at level 100, m at next level, right associativity).
Notation "m ;;; k" := (bind m (fun _ => k))
  (at level 100, right associativity).

(** [try: body except ... as e: handler e] *)
Definition try_except {A} (body : M A) (handler : PyExn -> M A) : M A :=
  fun w =>
    match body w with
    | (Raises e, w') => handler e w'
    | r => r
    end.

(** A socket call: its outcome comes from the environment, the call is
    logged. *)
Definition syscall {A} (c : SockCall) (o : outcome A) : M A :=
  fun w => (o, (w.1, w.2 ++ [{| call := c; ok := returned o |}])).

(** A read of a field of [self]. *)
Definition get {A} (field : PortScanner -> A) : M A :=
  fun w => (Returns (field w.1), w).

(** An update of [self]. *)
Definition modify (f : PortScanner -> PortScanner) : M unit :=
  fun w => (Returns tt, (f w.1, w.2)).

(* ===================================================================== *)
(** ** [PortScanner.scan_port], lines 41-67 *)
(* ===================================================================== *)

(** [{'port': port, 'status': status}] *)
Definition status_dict (port : Z) (status : string) : gmap string PyVal :=
  <["port" := VInt port]> (<["status" := VStr status]> ∅).

(** [{'port': port, 'status': 'ERROR', 'error': str(e)}] *)
Definition error_dict (port : Z) (e : PyExn) : gmap string PyVal :=
  <["port" := VInt port]>
    (<["status" := VStr "ERROR"]> (<["error" := VStr (str e)]> ∅)).

Definition scan_port (io : SocketLayer) (port : Z) : M (gmap string PyVal) :=
  try_except
    (syscall CallSocket (socket_socket io) ;;;
     t <- get timeout ;;
     syscall (CallSetTimeout t) (settimeout io t) ;;;
     host <- get target ;;
     result <- syscall (CallConnectEx host port) (connect_ex io host port) ;;
     syscall CallClose (close io) ;;;
     if result =? 0 then
       modify (append_open port) ;;;
       ret (status_dict port "OPEN")
     else
       modify (append_closed port) ;;;
       ret (status_dict port "CLOSED"))
    (fun e =>
       match e with
       | socket_timeout _ =>
           modify (append_filtered port) ;;;
           ret (status_dict port "FILTERED")
       | Exception _ =>
           ret (error_dict port e)
       end).

(* ===================================================================== *)
(** ** [PortScanner.run], lines 69-81 *)
(* ===================================================================== *)

(** [ThreadPoolExecutor(max_workers=...)]: the constructor of
    [concurrent.futures] raises [ValueError] for a worker count below 1. *)
Definition ThreadPoolExecutor (max_workers : Z) : outcome unit :=
  if max_workers <=? 0
  then Raises (Exception "max_workers must be greater than 0")
  else Returns tt.

(** The pool runs the submitted tasks.  A task is a call of [scan_port]; its
    only access to shared state is one [append], so the effect of the pool on
    [self] is that of the tasks run one after the other in some order: the
    schedule [sched], a list of task indices.  The [i]-th task meets the
    socket layer [net i] and stores its outcome in the [i]-th future. *)
Fixpoint execute (net : nat -> SocketLayer) (tasks : list Z) (sched : list nat)
    (futures : list (option (outcome (gmap string PyVal)))) (w : World)
  : list (option (outcome (gmap string PyVal))) * World :=
  match sched with
  | [] => (futures, w)
  | i :: sched' =>
      match tasks !! i with
      | Some port =>
          let (o, w') := scan_port (net i) port w in
          execute net tasks sched' (<[i := Some o]> futures) w'
      | None => execute net tasks sched' futures w
      end
  end.

(** [for future in futures: results.append(future.result())].  The result of
    a future is the value its task returned, or the exception it raised,
    raised again; on a future whose task never ran, [result()] does not
    return ([None]). *)
Fixpoint collect (futures : list (option (outcome (gmap string PyVal))))
    (results : list (gmap string PyVal))
  : option (outcome (list (gmap string PyVal))) :=
  match futures with
  | [] => Some (Returns results)
  | None :: _ => None
  | Some (Raises e) :: _ => Some (Raises e)
  | Some (Returns d) :: futures' => collect futures' (results ++ [d])
  end.

(** [run] under the schedule [sched]; [None] when it does not return. *)
Definition run (net : nat -> SocketLayer) (sched : list nat) (w : World)
  : option (outcome (list (gmap string PyVal)) * World) :=
  let results := [] in
  match ThreadPoolExecutor (threads w.1) with
  | Raises e => Some (Raises e, w)
  | Returns _ =>
      let tasks := ports w.1 in
      let (futures, w') :=
        execute net tasks sched (replicate (length tasks) None) w in
      match collect futures results with
      | Some o => Some (o, w')
      | None => None
      end
  end.

(** The schedules of a scan: every submitted task runs exactly once. *)
Definition schedule (self : PortScanner) (sched : list nat) : Prop :=
  sched ≡ₚ seq 0 (length (ports self)).

(** The ports of the [ERROR] entries of a result list: the error list. *)
Definition error_ports (results : list (gmap string PyVal)) : list Z :=
  omap (fun d =>
          match d !! "status", d !! "port" with
          | Some (VStr "ERROR"), Some (VInt p) => Some p
          | _, _ => None
          end) results.

(* ===================================================================== *)
(** ** Socket layers used in the examples *)
(* ===================================================================== *)

(** Every call returns; [connect_ex] returns [code]. *)
Definition answering (code : Z) : SocketLayer :=
  {| socket_socket := Returns tt;
     settimeout := fun _ => Returns tt;
     connect_ex := fun _ _ => Returns code;
     close := Returns tt |}.

(** [connect_ex] raises [e]; the calls before it return. *)
Definition failing_connect (e : PyExn) : SocketLayer :=
  {| socket_socket := Returns tt;
     settimeout := fun _ => Returns tt;
     connect_ex := fun _ _ => Raises e;
     close := Returns tt |}.

(** [socket.socket] itself raises [e]. *)
Definition no_socket (e : PyExn) : SocketLayer :=
  {| socket_socket := Raises e;
     settimeout := fun _ => Returns tt;
     connect_ex := fun _ _ => Returns 0;
     close := Returns tt |}.

(** The [errno] values of Linux that the examples use. *)
Definition ECONNREFUSED : Z := 111.
Definition ENETUNREACH : Z := 101.

(* ===================================================================== *)
(** ** Parsing the port specification: [main], lines 120-125 *)
(* ===================================================================== *)

(** The [ValueError]s this code can raise; nothing catches them. *)
Inductive ValueError : Type :=
| invalid_literal (text : string)   (* invalid literal for int() with base 10 *)
| not_enough_values (got : nat)     (* not enough values to unpack (expected 2, got n) *)
| too_many_values.                  (* too many values to unpack (expected 2) *)

Inductive checked (A : Type) : Type :=
| Ok (a : A)
| Fails (e : ValueError).
Arguments Ok {A} a.
Arguments Fails {A} e.

Definition succeeds {A} (r : checked A) : bool :=
  match r with Ok _ => true | Fails _ => false end.

(** [c in s] for a one-character [c]. *)
Fixpoint contains (c : ascii) (s : string) : bool :=
  match s with
  | EmptyString => false
  | String c' s' => Ascii.eqb c' c || contains c s'
  end.

(** [s.split(sep)] for a one-character separator: one piece more than there
    are separators, empty pieces included. *)
Fixpoint split (sep : ascii) (s : string) : list string :=
  match s with
  | EmptyString => [EmptyString]
  | String c s' =>
      if Ascii.eqb c sep then EmptyString :: split sep s'
      else match split sep s' with
           | piece :: pieces => String c piece :: pieces
           | [] => [String c EmptyString]
           end
  end.

(** The ASCII white space that [int] skips around a literal. *)
Definition is_space (c : ascii) : bool :=
  let n := nat_of_ascii c in
  ((9 <=? n)%nat && (n <=? 13)%nat) || (n =? 32)%nat.

Definition is_digit (c : ascii) : bool :=
  let n := nat_of_ascii c in (48 <=? n)%nat && (n <=? 57)%nat.

Definition digit_value (c : ascii) : Z := Z.of_nat (nat_of_ascii c) - 48.

Fixpoint lstrip (s : string) : string :=
  match s with
  | String c s' => if is_space c then lstrip s' else s
  | EmptyString => EmptyString
  end.

Fixpoint all_space (s : string) : bool :=
  match s with
  | String c s' => is_space c && all_space s'
  | EmptyString => true
  end.

(** The digits of a base-10 literal: decimal digits, single underscores
    between digits, white space allowed after the last digit. *)
Fixpoint digits (acc : Z) (after_digit : bool) (s : string) : option Z :=
  match s with
  | EmptyString => if after_digit then Some acc else None
  | String c s' =>
      if is_digit c then digits (10 * acc + digit_value c) true s'
      else if Ascii.eqb c "_" then
        if after_digit then digits acc false s' else None
      else if after_digit && all_space s then Some acc
      else None
  end.

(** [int(s)] on ASCII text: optional white space, an optional sign, the
    digits, optional white space.  (The interpreter's configurable limit on
    the length of a literal is not part of the model.) *)
Definition int (s : string) : checked Z :=
  match
    match lstrip s with
    | String "+" s' => digits 0 false s'
    | String "-" s' => Z.opp <$> digits 0 false s'
    | s' => digits 0 false s'
    end
  with
  | Some z => Ok z
  | None => Fails (invalid_literal s)
  end.

(** [list(range(start, stop))] *)
Definition range (start stop : Z) : list Z := seqZ start (stop - start).

(** [[int(p) for p in pieces]]: left to right, the first failure is raised. *)
Fixpoint ints (pieces : list string) : checked (list Z) :=
  match pieces with
  | [] => Ok []
  | p :: pieces' =>
      match int p with
      | Fails e => Fails e
      | Ok z =>
          match ints pieces' with
          | Fails e => Fails e
          | Ok zs => Ok (z :: zs)
          end
      end
  end.

(** [start, end = map(int, pieces)]: the iterator is lazy, so [int] runs on
    the first two pieces and, when there is one, on a third, before the
    unpacking complains about the count. *)
Definition unpack2 (pieces : list string) : checked (Z * Z) :=
  match pieces with
  | [] => Fails (not_enough_values 0)
  | p1 :: rest =>
      match int p1 with
      | Fails e => Fails e
      | Ok start =>
          match rest with
          | [] => Fails (not_enough_values 1)
          | p2 :: rest' =>
              match int p2 with
              | Fails e => Fails e
              | Ok end_ =>
                  match rest' with
                  | [] => Ok (start, end_)
                  | p3 :: _ =>
                      match int p3 with
                      | Fails e => Fails e
                      | Ok _ => Fails too_many_values
                      end
                  end
              end
          end
      end
  end.

(** The value of [ports] after line 125, for [args.ports = arg]. *)
Definition parse_ports (arg : string) : checked (list Z) :=
  if contains "-" arg then
    match unpack2 (split "-" arg) with
    | Fails e => Fails e
    | Ok (start, end_) => Ok (range start (end_ + 1))
    end
  else
    ints (split "," arg).

(* ===================================================================== *)
(** ** A probe in closed form *)
(* ===================================================================== *)

(** The socket calls of the [try] block up to the first one that raises:
    the code [connect_ex] returned when all four return. *)
Definition attempt (io : SocketLayer) (host : string) (t port : Z) : outcome Z :=
  match socket_socket io with
  | Raises e => Raises e
  | Returns _ =>
      match settimeout io t with
      | Raises e => Raises e
      | Returns _ =>
          match connect_ex io host port with
          | Raises e => Raises e
          | Returns code =>
              match close io with
              | Raises e => Raises e
              | Returns _ => Returns code
              end
          end
      end
  end.

(** The socket calls a probe makes. *)
Definition attempt_log (io : SocketLayer) (host : string) (t port : Z)
  : list LogEntry :=
  {| call := CallSocket; ok := returned (socket_socket io) |} ::
  match socket_socket io with
  | Raises _ => []
  | Returns _ =>
      {| call := CallSetTimeout t; ok := returned (settimeout io t) |} ::
      match settimeout io t with
      | Raises _ => []
      | Returns _ =>
          {| call := CallConnectEx host port;
             ok := returned (connect_ex io host port) |} ::
          match connect_ex io host port with
          | Raises _ => []
          | Returns _ => [{| call := CallClose; ok := returned (close io) |}]
          end
      end
  end.

(** The four outcomes of a probe. *)
Inductive Verdict : Type :=
| OPEN
| CLOSED
| FILTERED
| ERROR (cause : string).

#[global] Instance Verdict_eq_dec : EqDecision Verdict.
Proof. solve_decision. Defined.

(** The branch [scan_port] takes after the socket calls. *)
Definition verdict (o : outcome Z) : Verdict :=
  match o with
  | Returns code => if code =? 0 then OPEN else CLOSED
  | Raises (socket_timeout _) => FILTERED
  | Raises (Exception msg) => ERROR msg
  end.

(** The dictionary returned on each branch. *)
Definition verdict_dict (port : Z) (v : Verdict) : gmap string PyVal :=
  match v with
  | OPEN => status_dict port "OPEN"
  | CLOSED => status_dict port "CLOSED"
  | FILTERED => status_dict port "FILTERED"
  | ERROR msg => error_dict port (Exception msg)
  end.

(** The bucket update made on each branch. *)
Definition merge (port : Z) (v : Verdict) (self : PortScanner) : PortScanner :=
  match v with
  | OPEN => append_open port self
  | CLOSED => append_closed port self
  | FILTERED => append_filtered port self
  | ERROR _ => self
  end.

(** The dictionary of the [i]-th task, which probes [port] of [tgt] with
    timeout [tmo]. *)
Definition answer (net : nat -> SocketLayer) (tgt : string) (tmo : Z)
    (i : nat) (port : Z) : gmap string PyVal :=
  verdict_dict port (verdict (attempt (net i) tgt tmo port)).

(** One task of the schedule: what it stores in its future, and what it
    does to the scanner. *)
Definition step_futures (net : nat -> SocketLayer) (tgt : string) (tmo : Z)
    (tasks : list Z) (fs : list (option (outcome (gmap string PyVal))))
    (i : nat) : list (option (outcome (gmap string PyVal))) :=
  match tasks !! i with
  | Some port => <[i := Some (Returns (answer net tgt tmo i port))]> fs
  | None => fs
  end.

Definition step_self (net : nat -> SocketLayer) (tgt : string) (tmo : Z)
    (tasks : list Z) (s : PortScanner) (i : nat) : PortScanner :=
  match tasks !! i with
  | Some port => merge port (verdict (attempt (net i) tgt tmo port)) s
  | None => s
  end.

(** The ports of the tasks of [sched], in that order, whose verdict
    satisfies [P]. *)
Definition chosen (P : Verdict -> bool) (net : nat -> SocketLayer)
    (tgt : string) (tmo : Z) (tasks : list Z) (sched : list nat) : list Z :=
  omap (fun i =>
          match tasks !! i with
          | Some port =>
              if P (verdict (attempt (net i) tgt tmo port))
              then Some port else None
          | None => None
          end) sched.

Definition is_open (v : Verdict) : bool := bool_decide (v = OPEN).
Definition is_closed (v : Verdict) : bool := bool_decide (v = CLOSED).
Definition is_filtered (v : Verdict) : bool := bool_decide (v = FILTERED).
Definition is_error (v : Verdict) : bool :=
  match v with ERROR _ => true | _ => false end.

(* ===================================================================== *)
(** ** The statements of the specification *)
(* ===================================================================== *)

(** Section 4.2, the classification policy.  The condition the transport
    reports: the connection is established, it is refused, nothing answers
    within the timeout, or anything else went wrong. *)
Inductive Condition : Type :=
| Established
| Refused
| NoResponse
| OtherFailure.

Definition condition (o : outcome Z) : Condition :=
  match o with
  | Returns code =>
      if code =? 0 then Established
      else if code =? ECONNREFUSED then Refused
      else OtherFailure
  | Raises (socket_timeout _) => NoResponse
  | Raises (Exception _) => OtherFailure
  end.

Definition policy (c : Condition) : string :=
  match c with
  | Established => "OPEN"
  | Refused => "CLOSED"
  | NoResponse => "FILTERED"
  | OtherFailure => "ERROR"
  end.

(** A probe classifies by the policy: the status is the policy's, and an
    [ERROR] carries a cause. *)
Definition follows_policy (io : SocketLayer) (port : Z) (w : World) : Prop :=
  let c := condition (attempt io (target w.1) (timeout w.1) port) in
  exists d, (scan_port io port w).1 = Returns d /\
    d !! "port" = Some (VInt port) /\
    d !! "status" = Some (VStr (policy c)) /\
    (c = OtherFailure -> exists cause, d !! "error" = Some (VStr cause)).

(** Section 4.2: a probe leaves the buckets of the scanner as they are. *)
Definition leaves_buckets (io : SocketLayer) (port : Z) (w : World) : Prop :=
  let self' := (scan_port io port w).2.1 in
  open_ports self' = open_ports w.1 /\
  closed_ports self' = closed_ports w.1 /\
  filtered_ports self' = filtered_ports w.1.

(** Section 4.2: a probe opens one socket and closes it. *)
Definition one_socket_closed (io : SocketLayer) (port : Z) (w : World) : Prop :=
  let log := (scan_port io port (w.1, [])).2.2 in
  opened log = 1%nat /\ closed log = 1%nat.

(** Section 8: the buckets and the error list partition the input ports. *)
Definition partitions (input : list Z) (self : PortScanner)
    (results : list (gmap string PyVal)) : Prop :=
  let o := open_ports self in
  let c := closed_ports self in
  let f := filtered_ports self in
  let e := error_ports results in
  (forall p, p ∈ o -> ~ (p ∈ c \/ p ∈ f \/ p ∈ e)) /\
  (forall p, p ∈ c -> ~ (p ∈ f \/ p ∈ e)) /\
  (forall p, p ∈ f -> ~ p ∈ e) /\
  (forall p, p ∈ input <-> p ∈ o \/ p ∈ c \/ p ∈ f \/ p ∈ e).

Definition scan_partitions (net : nat -> SocketLayer) (sched : list nat)
    (w : World) : Prop :=
  match run net sched w with
  | Some (Returns results, w') => partitions (ports w.1) w'.1 results
  | _ => False
  end.

(** Sections 7 and 8: an empty port set, a timeout that is not positive and a
    concurrency below 1 make the scan call fail. *)
Definition invalid_config (self : PortScanner) : Prop :=
  ports self = [] \/ timeout self <= 0 \/ threads self < 1.

Definition rejects_invalid_config (net : nat -> SocketLayer)
    (sched : list nat) (w : World) : Prop :=
  invalid_config w.1 ->
  exists e w', run net sched w = Some (Raises e, w').

(** Section 4.1: the specifications that must be rejected.  The tokens are
    the pieces around the separator in use. *)
Definition tokens (arg : string) : list string :=
  if contains "-" arg then split "-" arg else split "," arg.

Definition is_port (z : Z) : bool := (1 <=? z) && (z <=? 65535).

Definition must_be_rejected (arg : string) : bool :=
  existsb (fun tok =>
             match int tok with
             | Fails _ => true
             | Ok z => negb (is_port z)
             end) (tokens arg)
  || (contains "-" arg &&
      match split "-" arg with
      | [p1; p2] =>
          match int p1, int p2 with
          | Ok start, Ok end_ => end_ <? start
          | _, _ => false
          end
      | _ => false
      end).

Definition validates_ports (arg : string) : Prop :=
  succeeds (parse_ports arg) = false <-> must_be_rejected arg = true.

(** Section 4.1: an explicit list resolves to its ports without duplicates,
    each at the place of its first occurrence. *)
Fixpoint first_seen (seen : list Z) (zs : list Z) : list Z :=
  match zs with
  | [] => []
  | z :: zs' =>
      if bool_decide (z ∈ seen) then first_seen seen zs'
      else z :: first_seen (z :: seen) zs'
  end.

Definition removes_duplicates (arg : string) : Prop :=
  forall zs, ints (split "," arg) = Ok zs ->
             parse_ports arg = Ok (first_seen [] zs).

(** [",".join(pieces)] *)
Fixpoint join (pieces : list string) : string :=
  match pieces with
  | [] => EmptyString
  | [p] => p
  | p :: pieces' => p +:+ String "," (join pieces')
  end.

(** [str(n)] for a natural number: its decimal numeral. *)
Definition numeral (n : N) : string := pretty n.

(* ===================================================================== *)
(** ** Inputs of the examples *)
(* ===================================================================== *)

(** A listener that goes away between two probes of the same port. *)
Definition flapping (i : nat) : SocketLayer :=
  match i with
  | O => answering 0
  | _ => answering ECONNREFUSED
  end.

(** A host name that does not resolve: [connect_ex] raises [gaierror]. *)
Definition unresolved : SocketLayer :=
  failing_connect (Exception "[Errno -2] Name or service not known").

(* ===================================================================== *)
(** ** The socket calls of a scan *)
(* ===================================================================== *)

(** The socket calls of the tasks of [sched], in that order. *)
Definition task_logs (net : nat -> SocketLayer) (tgt : string) (tmo : Z)
    (tasks : list Z) (sched : list nat) : list LogEntry :=
  flat_map (fun i =>
              match tasks !! i with
              | Some port => attempt_log (net i) tgt tmo port
              | None => []
              end) sched.

(** The calls of [socket.socket] and of [connect_ex] in a log. *)
Definition socket_calls (log : list LogEntry) : nat :=
  length (filter (fun e => call e = CallSocket) log).

Definition is_connect (c : SockCall) : bool :=
  match c with CallConnectEx _ _ => true | _ => false end.

Definition connect_calls (log : list LogEntry) : nat :=
  length (filter (fun e => is_connect (call e) = true) log).

(* ===================================================================== *)
(** ** [PortScanner.display_results], lines 83-96 *)
(* ===================================================================== *)

(** The constants of [colorama] that the scanner prints. *)
Record Colorama : Type := {
  Fore_CYAN : string;
  Fore_GREEN : string;
  Fore_YELLOW : string;
  Style_RESET_ALL : string
}.

Definition newline : string := String "010" EmptyString.

(** [c * n] for a one-character string. *)
Fixpoint repeat_char (c : ascii) (n : nat) : string :=
  match n with
  | O => EmptyString
  | S n' => String c (repeat_char c n')
  end.

(** [sorted(l)] on integers. *)
Definition sorted (l : list Z) : list Z := merge_sort Z.le l.

(** The line of an open port; the check mark is written in UTF-8. *)
Definition open_line (c : Colorama) (port : Z) : string :=
  "  " +:+ Fore_GREEN c +:+ "✓" +:+ Style_RESET_ALL c +:+
  " Port " +:+ pretty port +:+ " is OPEN".

(** The arguments of the calls of [print], in order. *)
Definition display_results (c : Colorama) (self : PortScanner) : list string :=
  [ newline +:+ Fore_CYAN c +:+ repeat_char "=" 60;
    "Scan Results for " +:+ target self;
    repeat_char "=" 60 +:+ Style_RESET_ALL c +:+ newline ] ++
  match open_ports self with
  | [] => []
  | _ :: _ =>
      (Fore_GREEN c +:+ "Open Ports (" +:+ pretty (length (open_ports self))
         +:+ "):" +:+ Style_RESET_ALL c) ::
      (open_line c <$> sorted (open_ports self))
  end ++
  match filtered_ports self with
  | [] => []
  | _ :: _ =>
      [ newline +:+ Fore_YELLOW c +:+ "Filtered Ports ("
          +:+ pretty (length (filtered_ports self)) +:+ "):"
          +:+ Style_RESET_ALL c;
        "  " +:+ pretty (length (filtered_ports self))
          +:+ " ports are FILTERED" ]
  end.

(* ===================================================================== *)
(** ** [PortScanner.export_json], lines 98-107 *)
(* ===================================================================== *)

(** The values of the dictionary handed to [json.dump]: text, or a list of
    integers. *)
Inductive JsonValue : Type :=
| JStr (s : string)
| JInts (items : list Z).

(** [data], lines 100-105; the keys are in the order of the literal. *)
Definition export_data (self : PortScanner) : list (string * JsonValue) :=
  [ ("target", JStr (target self));
    ("open_ports", JInts (open_ports self));
    ("closed_ports", JInts (closed_ports self));
    ("filtered_ports", JInts (filtered_ports self)) ].

(** [export_json] on the files [files].  The text that [json.dump] with
    [indent=2] writes for a value is [dump]; [open_w filename] is what
    [open(filename, 'w')] does, and the writes to an open file succeed. *)
Definition export_json (dump : list (string * JsonValue) -> string)
    (open_w : string -> outcome unit) (filename : string)
    (self : PortScanner) (files : gmap string string)
  : outcome unit * gmap string string :=
  let data := export_data self in
  match open_w filename with
  | Raises e => (Raises e, files)
  | Returns _ => (Returns tt, <[filename := dump data]> files)
  end.

(* ===================================================================== *)
(** ** [main], lines 110-133 *)
(* ===================================================================== *)

(** The namespace that [parse_args] returns. *)
Record Args : Type := {
  args_target : string;
  args_ports : string;
  args_timeout : Z;
  args_threads : Z;
  args_output : option string
}.

(** What the process touches: sockets, standard output, files. *)
Record Machine : Type := {
  sockets : list LogEntry;
  stdout : list string;
  files : gmap string string
}.

(** How [main] ends: it returns, or an exception leaves it. *)
Inductive Exit : Type :=
| Normal
| RaisedValueError (e : ValueError)
| RaisedExn (e : PyExn).

(** [if args.output]: [None] and the empty string are false. *)
Definition truthy (output : option string) : option string :=
  match output with
  | Some (String c s) => Some (String c s)
  | _ => None
  end.

Definition main (c : Colorama) (dump : list (string * JsonValue) -> string)
    (open_w : string -> outcome unit) (net : nat -> SocketLayer)
    (sched : list nat) (args : Args) (m : Machine) : option (Exit * Machine) :=
  match parse_ports (args_ports args) with
  | Fails e => Some (RaisedValueError e, m)
  | Ok ports =>
      let scanner :=
        init (args_target args) ports (args_timeout args) (args_threads args) in
      match run net sched (scanner, sockets m) with
      | None => None
      | Some (Raises e, (_, log)) =>
          Some (RaisedExn e,
                {| sockets := log; stdout := stdout m; files := files m |})
      | Some (Returns _, (scanner, log)) =>
          let out := stdout m ++ display_results c scanner in
          match truthy (args_output args) with
          | None =>
              Some (Normal, {| sockets := log; stdout := out; files := files m |})
          | Some filename =>
              match export_json dump open_w filename scanner (files m) with
              | (Raises e, files') =>
                  Some (RaisedExn e,
                        {| sockets := log; stdout := out; files := files' |})
              | (Returns _, files') =>
                  Some (Normal,
                        {| sockets := log;
                           stdout := out ++
                             [ newline +:+ Fore_GREEN c +:+ "Results exported to "
                                 +:+ filename +:+ Style_RESET_ALL c ];
                           files := files' |})
              end
          end
      end
  end.

(** The constants as [colorama] defines them, for the examples. *)
Definition ansi : Colorama :=
  {| Fore_CYAN := String "027" "[36m";
     Fore_GREEN := String "027" "[32m";
     Fore_YELLOW := String "027" "[33m";
     Style_RESET_ALL := String "027" "[0m" |}.

(** A scanner that has already found port 22 open. *)
Definition used_scanner : PortScanner :=
  {| target := "192.0.2.7"; ports := [80; 80]; timeout := 1; threads := 50;
     open_ports := [22]; closed_ports := []; filtered_ports := [] |}.

(** A command line whose [-o] is the empty string, and a machine that has
    a file from an earlier export. *)
Definition quiet_args : Args :=
  {| args_target := "192.0.2.7"; args_ports := "80,80"; args_timeout := 1;
     args_threads := 50; args_output := Some EmptyString |}.

Definition old_machine : Machine :=
  {| sockets := []; stdout := []; files := {[ "old.json" := "[]" ]} |}.

(* ===================================================================== *)
(** * Properties of a single probe *)
(* ===================================================================== *)

Ltac unfold_probe :=
  unfold scan_port, try_except, bind, syscall, get, modify, ret,
    attempt, attempt_log; simpl.

(** [scan_port] never raises; the dictionary it returns, its update of
    [self] and the socket calls it makes are those of the closed form. *)
Lemma scan_port_eq (io : SocketLayer) (port : Z) (self : PortScanner)
    (log : list LogEntry) :
  scan_port io port (self, log) =
    (Returns (verdict_dict port
                (verdict (attempt io (target self) (timeout self) port))),
     (merge port (verdict (attempt io (target self) (timeout self) port)) self,
      log ++ attempt_log io (target self) (timeout self) port)).
Proof.
  unfold_probe.
  destruct (socket_socket io) as [[]|[m|m]]; simpl; try reflexivity.
  destruct (settimeout io (timeout self)) as [[]|[m|m]]; simpl;
    rewrite <- ?app_assoc; try reflexivity.
  destruct (connect_ex io (target self) port) as [code|[m|m]]; simpl;
    rewrite <- ?app_assoc; try reflexivity.
  destruct (close io) as [[]|[m|m]]; simpl;
    rewrite <- ?app_assoc; try reflexivity.
  destruct (code =? 0); reflexivity.
Qed.

Lemma merge_frame (port : Z) (v : Verdict) (self : PortScanner) :
  target (merge port v self) = target self /\
  ports (merge port v self) = ports self /\
  timeout (merge port v self) = timeout self /\
  threads (merge port v self) = threads self.
Proof. destruct v; repeat split. Qed.

Lemma verdict_dict_port (port : Z) (v : Verdict) :
  verdict_dict port v !! "port" = Some (VInt port).
Proof. destruct v; reflexivity. Qed.

Lemma verdict_dict_status (port : Z) (v : Verdict) :
  verdict_dict port v !! "status" =
    Some (VStr match v with
               | OPEN => "OPEN" | CLOSED => "CLOSED"
               | FILTERED => "FILTERED" | ERROR _ => "ERROR"
               end).
Proof. destruct v; reflexivity. Qed.

Lemma verdict_dict_error (port : Z) (v : Verdict) :
  verdict_dict port v !! "error" =
    match v with ERROR msg => Some (VStr msg) | _ => None end.
Proof. destruct v; reflexivity. Qed.

(** C2, as the code has it: the four branches of [scan_port].  When the four
    socket calls return, code 0 of [connect_ex] gives OPEN and every other
    code gives CLOSED, refusal or not; the first call that raises gives
    FILTERED when it raises [socket.timeout], and ERROR with [str(e)]
    recorded when it raises any other exception [e]. *)
Theorem scan_port_branches (io : SocketLayer) (port : Z) (self : PortScanner)
    (log : list LogEntry) :
  (scan_port io port (self, log)).1 =
    Returns
      match attempt io (target self) (timeout self) port with
      | Returns code =>
          if code =? 0 then status_dict port "OPEN"
          else status_dict port "CLOSED"
      | Raises (socket_timeout _) => status_dict port "FILTERED"
      | Raises (Exception msg) =>
          <["port" := VInt port]>
            (<["status" := VStr "ERROR"]> (<["error" := VStr msg]> ∅))
      end.
Proof.
  rewrite scan_port_eq; simpl.
  destruct (attempt _ _ _ _) as [code|[m|m]]; simpl; try reflexivity.
  destruct (code =? 0); reflexivity.
Qed.

(** C2, as the specification states it, fails: a network that is
    unreachable makes [connect_ex] return [ENETUNREACH], and the probe
    answers CLOSED where the policy says ERROR. *)
Lemma unreachable_is_closed :
  ~ follows_policy (answering ENETUNREACH) 80
      (init "192.0.2.7" [80] 1 50, []).
Proof.
  intros (d & Hd & _ & Hstatus & _).
  rewrite scan_port_eq in Hd; simpl in Hd.
  injection Hd as <-.
  vm_compute in Hstatus. discriminate Hstatus.
Qed.

(** C5 at a host name that does not resolve: [connect_ex] raises, the probe
    answers ERROR, and the socket it opened is never closed by the code. *)
Theorem scan_port_leaks_socket :
  let w := (init "no-such-host.invalid" [80] 1 50, []) in
  (scan_port unresolved 80 w).2.2 =
    [ {| call := CallSocket; ok := true |};
      {| call := CallSetTimeout 1; ok := true |};
      {| call := CallConnectEx "no-such-host.invalid" 80; ok := false |} ] /\
  opened (scan_port unresolved 80 w).2.2 = 1%nat /\
  closed (scan_port unresolved 80 w).2.2 = 0%nat /\
  ~ one_socket_closed unresolved 80 w.
Proof.
  repeat split; try reflexivity.
  intros [_ Hclosed]. vm_compute in Hclosed. discriminate Hclosed.
Qed.

(** The probe calls [close] exactly when [socket], [settimeout] and
    [connect_ex] all returned. *)
Lemma close_called_iff (io : SocketLayer) (port : Z) (self : PortScanner) :
  closed (scan_port io port (self, [])).2.2 = 1%nat <->
  exists code,
    socket_socket io = Returns tt /\
    settimeout io (timeout self) = Returns tt /\
    connect_ex io (target self) port = Returns code.
Proof.
  rewrite scan_port_eq; simpl. unfold attempt_log, closed.
  destruct (socket_socket io) as [[]|e1]; simpl.
  2: { split; [discriminate | intros (c & H & _); discriminate H]. }
  destruct (settimeout io (timeout self)) as [[]|e2]; simpl.
  2: { split; [discriminate | intros (c & _ & H & _); discriminate H]. }
  destruct (connect_ex io (target self) port) as [code|e3]; simpl.
  2: { split; [discriminate | intros (c & _ & _ & H); discriminate H]. }
  split; [intros _; exists code; auto | reflexivity].
Qed.

(** When [socket.socket] itself raises, as it does when the process is out
    of descriptors, the probe answers ERROR and has opened no socket. *)
Example no_socket_no_open :
  let w := (init "192.0.2.7" [80] 1 50, []) in
  (scan_port (no_socket (Exception "[Errno 24] Too many open files")) 80 w).1 =
    Returns (error_dict 80 (Exception "[Errno 24] Too many open files")) /\
  opened (scan_port (no_socket (Exception "[Errno 24] Too many open files"))
            80 w).2.2 = 0%nat.
Proof. split; reflexivity. Qed.

(** C6, as the specification states it, fails: a probe that connects
    appends its port to [open_ports]. *)
Lemma probe_mutates_buckets :
  ~ leaves_buckets (answering 0) 80 (init "192.0.2.7" [80] 1 50, []).
Proof. intros [Hopen _]. vm_compute in Hopen. discriminate Hopen. Qed.

(** C6, as the code has it: the probe itself appends its port to the bucket
    of its verdict, [open_ports] for OPEN, [closed_ports] for CLOSED,
    [filtered_ports] for FILTERED, and changes nothing else of the scanner;
    only on ERROR does it leave the scanner as it was. *)
Theorem scan_port_effect (io : SocketLayer) (port : Z) (self : PortScanner)
    (log : list LogEntry) :
  (scan_port io port (self, log)).2.1 =
    match verdict (attempt io (target self) (timeout self) port) with
    | OPEN =>
        {| target := target self; ports := ports self;
           timeout := timeout self; threads := threads self;
           open_ports := open_ports self ++ [port];
           closed_ports := closed_ports self;
           filtered_ports := filtered_ports self |}
    | CLOSED =>
        {| target := target self; ports := ports self;
           timeout := timeout self; threads := threads self;
           open_ports := open_ports self;
           closed_ports := closed_ports self ++ [port];
           filtered_ports := filtered_ports self |}
    | FILTERED =>
        {| target := target self; ports := ports self;
           timeout := timeout self; threads := threads self;
           open_ports := open_ports self;
           closed_ports := closed_ports self;
           filtered_ports := filtered_ports self ++ [port] |}
    | ERROR _ => self
    end.
Proof.
  rewrite scan_port_eq; simpl.
  destruct (verdict _); reflexivity.
Qed.

(* ===================================================================== *)
(** * Properties of a scan *)
(* ===================================================================== *)

Section Pool.
Variable net : nat -> SocketLayer.
Variables (tgt : string) (tmo : Z) (tasks : list Z).

Local Abbreviation ans := (answer net tgt tmo).
Local Abbreviation stepF := (step_futures net tgt tmo tasks).
Local Abbreviation stepS := (step_self net tgt tmo tasks).
Local Abbreviation pick P := (chosen P net tgt tmo tasks).

Lemma execute_fold (sched : list nat) :
  forall futures self log,
    target self = tgt -> timeout self = tmo ->
    exists log',
      execute net tasks sched futures (self, log) =
        (foldl stepF futures sched,
         (foldl stepS self sched, log')).
Proof.
  induction sched as [|i sched IH]; intros futures self log Htgt Htmo; simpl.
  - exists log. reflexivity.
  - unfold step_futures at 2, step_self at 2.
    destruct (tasks !! i) as [port|]; [|apply IH; assumption].
    rewrite scan_port_eq, Htgt, Htmo.
    apply IH.
    + rewrite <- Htgt. apply merge_frame.
    + rewrite <- Htmo. apply merge_frame.
Qed.

Lemma step_self_frame (sched : list nat) (self : PortScanner) :
  target (foldl stepS self sched) = target self /\
  ports (foldl stepS self sched) = ports self /\
  timeout (foldl stepS self sched) = timeout self /\
  threads (foldl stepS self sched) = threads self.
Proof.
  revert self. induction sched as [|i sched IH]; intros self; simpl; [auto|].
  destruct (IH (stepS self i)) as (-> & -> & -> & ->).
  unfold step_self. destruct (tasks !! i); [apply merge_frame|auto].
Qed.

Lemma step_self_buckets (sched : list nat) (self : PortScanner) :
  open_ports (foldl stepS self sched) =
    open_ports self ++ pick is_open sched /\
  closed_ports (foldl stepS self sched) =
    closed_ports self ++ pick is_closed sched /\
  filtered_ports (foldl stepS self sched) =
    filtered_ports self ++ pick is_filtered sched.
Proof.
  revert self. induction sched as [|i sched IH]; intros self; simpl.
  - rewrite !app_nil_r. auto.
  - destruct (IH (stepS self i)) as (-> & -> & ->).
    unfold step_self, chosen; simpl.
    destruct (tasks !! i) as [port|]; simpl; [|auto].
    destruct (verdict _); simpl; rewrite <- ?app_assoc; auto.
Qed.

Lemma step_futures_length (sched : list nat) :
  forall futures, length (foldl stepF futures sched) = length futures.
Proof.
  induction sched as [|i sched IH]; intros futures; simpl; [reflexivity|].
  rewrite IH. unfold step_futures.
  destruct (tasks !! i); [apply length_insert|reflexivity].
Qed.

(** A future that holds the answer of its task keeps it. *)
Lemma step_futures_keep (sched : list nat) (i : nat) (port : Z) :
  tasks !! i = Some port ->
  forall futures,
    futures !! i = Some (Some (Returns (ans i port))) ->
    foldl stepF futures sched !! i =
      Some (Some (Returns (ans i port))).
Proof.
  intros Hi. induction sched as [|j sched IH]; intros futures Hf; simpl.
  - assumption.
  - apply IH. unfold step_futures.
    destruct (tasks !! j) as [q|] eqn:Hj; [|assumption].
    destruct (decide (j = i)) as [->|Hne].
    + rewrite Hi in Hj. injection Hj as <-.
      apply list_lookup_insert_eq. eapply lookup_lt_Some, Hf.
    + rewrite list_lookup_insert_ne by assumption. assumption.
Qed.

(** A task that was scheduled has filled its future. *)
Lemma step_futures_done (sched : list nat) (i : nat) (port : Z) :
  tasks !! i = Some port -> i ∈ sched ->
  forall futures,
    (i < length futures)%nat ->
    foldl stepF futures sched !! i =
      Some (Some (Returns (ans i port))).
Proof.
  intros Hi. induction sched as [|j sched IH]; intros Hin futures Hlen.
  - inversion Hin.
  - simpl. destruct (decide (j = i)) as [->|Hne].
    + apply step_futures_keep; [assumption|].
      unfold step_futures. rewrite Hi.
      apply list_lookup_insert_eq. assumption.
    + apply IH.
      * apply elem_of_cons in Hin as [Heq|Hin]; [congruence|assumption].
      * unfold step_futures. destruct (tasks !! j); [|assumption].
        rewrite length_insert. assumption.
Qed.

(** When every task was scheduled, the futures hold the answers of the
    tasks, in the order of submission. *)
Lemma step_futures_all (sched : list nat) :
  sched ≡ₚ seq 0 (length tasks) ->
  foldl stepF (replicate (length tasks) None) sched =
    (fun d => Some (Returns d)) <$> imap ans tasks.
Proof.
  intros Hperm. apply list_eq. intros i.
  rewrite list_lookup_fmap, list_lookup_imap.
  destruct (tasks !! i) as [port|] eqn:Hi; simpl.
  - apply step_futures_done; [assumption| |].
    + rewrite Hperm. apply elem_of_seq.
      apply lookup_lt_Some in Hi. lia.
    + rewrite length_replicate. eapply lookup_lt_Some, Hi.
  - apply lookup_ge_None.
    rewrite step_futures_length, length_replicate.
    apply lookup_ge_None. assumption.
Qed.

Lemma collect_answers (ds : list (gmap string PyVal)) :
  forall results,
    collect ((fun d => Some (Returns d)) <$> ds) results =
      Some (Returns (results ++ ds)).
Proof.
  induction ds as [|d ds IH]; intros results; simpl.
  - rewrite app_nil_r. reflexivity.
  - rewrite IH, <- app_assoc. reflexivity.
Qed.

(** The scan in closed form. *)
Lemma run_fold (sched : list nat) (self : PortScanner) (log : list LogEntry) :
  target self = tgt -> timeout self = tmo -> ports self = tasks ->
  1 <= threads self ->
  sched ≡ₚ seq 0 (length tasks) ->
  exists log',
    run net sched (self, log) =
      Some (Returns (imap ans tasks), (foldl stepS self sched, log')).
Proof.
  intros Htgt Htmo Hports Hthreads Hperm.
  unfold run, ThreadPoolExecutor; simpl.
  destruct (Z.leb_spec (threads self) 0) as [?|_]; [lia|].
  rewrite Hports.
  destruct (execute_fold sched (replicate (length tasks) None) self log
              Htgt Htmo) as [log' ->].
  exists log'.
  rewrite step_futures_all by assumption.
  rewrite collect_answers. reflexivity.
Qed.
End Pool.

Lemma elem_of_chosen (P : Verdict -> bool) (net : nat -> SocketLayer)
    (tgt : string) (tmo : Z) (tasks : list Z) (sched : list nat) (p : Z) :
  p ∈ chosen P net tgt tmo tasks sched <->
  exists i, i ∈ sched /\ tasks !! i = Some p /\
            P (verdict (attempt (net i) tgt tmo p)) = true.
Proof.
  unfold chosen. rewrite list_elem_of_omap. split.
  - intros (i & Hin & Hi).
    destruct (tasks !! i) as [q|] eqn:Hq; [|discriminate].
    destruct (P _) eqn:HP; [|discriminate].
    injection Hi as ->. eauto.
  - intros (i & Hin & Hi & HP). exists i. rewrite Hi, HP. auto.
Qed.

Lemma chosen_none (P : Verdict -> bool) (net : nat -> SocketLayer)
    (tgt : string) (tmo : Z) (tasks : list Z) (sched : list nat) :
  (forall i p, tasks !! i = Some p ->
               P (verdict (attempt (net i) tgt tmo p)) = false) ->
  chosen P net tgt tmo tasks sched = [].
Proof.
  intros HP. unfold chosen.
  induction sched as [|i sched IH]; simpl; [reflexivity|].
  destruct (tasks !! i) as [p|] eqn:Hi; [rewrite (HP _ _ Hi)|]; exact IH.
Qed.

Lemma error_ports_answer (d : gmap string PyVal) (port : Z) (v : Verdict) (p : Z) :
  d = verdict_dict port v ->
  match d !! "status", d !! "port" with
  | Some (VStr "ERROR"), Some (VInt q) => Some q
  | _, _ => None
  end = Some p <->
  p = port /\ is_error v = true.
Proof.
  intros ->. destruct v; vm_compute; split;
    try (intros [_ H]; discriminate H); try discriminate.
  - intros H. injection H as ->. auto.
  - intros [-> _]. reflexivity.
Qed.

Lemma elem_of_error_ports (net : nat -> SocketLayer) (tgt : string) (tmo : Z)
    (tasks : list Z) (p : Z) :
  p ∈ error_ports (imap (answer net tgt tmo) tasks) <->
  exists i, tasks !! i = Some p /\
            is_error (verdict (attempt (net i) tgt tmo p)) = true.
Proof.
  unfold error_ports. rewrite list_elem_of_omap. split.
  - intros (d & Hd & Hp).
    apply list_elem_of_lookup in Hd as [i Hd].
    rewrite list_lookup_imap in Hd.
    destruct (tasks !! i) as [q|] eqn:Hq; [|discriminate].
    injection Hd as Hd. symmetry in Hd.
    apply (error_ports_answer _ _ _ _ Hd) in Hp as [-> He]. eauto.
  - intros (i & Hi & He).
    exists (answer net tgt tmo i p). split.
    + apply list_elem_of_lookup. exists i.
      rewrite list_lookup_imap, Hi. reflexivity.
    + apply (error_ports_answer _ p _ p eq_refl). auto.
Qed.

Lemma imap_answer_ports (net : nat -> SocketLayer) (tgt : string) (tmo : Z)
    (tasks : list Z) :
  (fun d : gmap string PyVal => d !! "port") <$> imap (answer net tgt tmo) tasks =
    (fun p => Some (VInt p)) <$> tasks.
Proof.
  apply list_eq. intros i.
  rewrite !list_lookup_fmap, list_lookup_imap.
  destruct (tasks !! i) as [p|]; simpl; [|reflexivity].
  unfold answer. rewrite verdict_dict_port. reflexivity.
Qed.

(** With at least one worker and every task run once, [run] returns: the
    answers of the tasks in the order of the ports, and buckets grown by the
    ports of each verdict in the order of the schedule. *)
Lemma run_returns (net : nat -> SocketLayer) (sched : list nat)
    (self : PortScanner) (log : list LogEntry) :
  1 <= threads self -> schedule self sched ->
  exists self' log',
    run net sched (self, log) =
      Some (Returns (imap (answer net (target self) (timeout self)) (ports self)),
            (self', log')) /\
    open_ports self' = open_ports self ++
      chosen is_open net (target self) (timeout self) (ports self) sched /\
    closed_ports self' = closed_ports self ++
      chosen is_closed net (target self) (timeout self) (ports self) sched /\
    filtered_ports self' = filtered_ports self ++
      chosen is_filtered net (target self) (timeout self) (ports self) sched.
Proof.
  intros Hthreads Hsched.
  destruct (run_fold net (target self) (timeout self) (ports self) sched
              self log eq_refl eq_refl eq_refl Hthreads Hsched) as [log' Hrun].
  eexists _, log'. split; [exact Hrun|].
  apply step_self_buckets.
Qed.

(** C10: the scan returns one dictionary for each element of the port list,
    in the order of the list, each with the port of its element, a port that
    occurs twice having two entries. *)
Theorem run_one_result_per_port (net : nat -> SocketLayer) (sched : list nat)
    (self : PortScanner) (log : list LogEntry) :
  1 <= threads self -> schedule self sched ->
  exists results w',
    run net sched (self, log) = Some (Returns results, w') /\
    length results = length (ports self) /\
    (fun d : gmap string PyVal => d !! "port") <$> results =
      (fun p => Some (VInt p)) <$> ports self.
Proof.
  intros Hthreads Hsched.
  destruct (run_returns net sched self log Hthreads Hsched)
    as (self' & log' & Hrun & _).
  eexists _, _. split; [exact Hrun|]. split.
  - apply length_imap.
  - apply imap_answer_ports.
Qed.

Lemma run_one_result_per_port_witness :
  exists results w',
    run flapping [1; 0]%nat (init "192.0.2.7" [80; 80] 1 50, []) =
      Some (Returns results, w') /\
    length results = 2%nat /\
    (fun d : gmap string PyVal => d !! "port") <$> results =
      [Some (VInt 80); Some (VInt 80)].
Proof.
  apply (run_one_result_per_port flapping [1; 0]%nat
           (init "192.0.2.7" [80; 80] 1 50) []).
  - simpl. lia.
  - unfold schedule. simpl. apply perm_swap.
Defined.

(** C3: an ERROR of a probe stays in the result list.  The scan returns one
    outcome per port; the entry of a probe that raised an exception other
    than the timeout is its ERROR dictionary, and its port is in the error
    list; when every probe errors, every entry is an ERROR and the buckets
    are as before. *)
Theorem run_error_is_local (net : nat -> SocketLayer) (sched : list nat)
    (self : PortScanner) (log : list LogEntry) :
  1 <= threads self -> schedule self sched ->
  exists results self' log',
    run net sched (self, log) = Some (Returns results, (self', log')) /\
    length results = length (ports self) /\
    (forall i port msg,
        ports self !! i = Some port ->
        attempt (net i) (target self) (timeout self) port =
          Raises (Exception msg) ->
        results !! i = Some (error_dict port (Exception msg)) /\
        port ∈ error_ports results) /\
    ((forall i port,
         ports self !! i = Some port ->
         exists msg, attempt (net i) (target self) (timeout self) port =
                       Raises (Exception msg)) ->
     Forall (fun d : gmap string PyVal => d !! "status" = Some (VStr "ERROR"))
       results /\
     open_ports self' = open_ports self /\
     closed_ports self' = closed_ports self /\
     filtered_ports self' = filtered_ports self).
Proof.
  intros Hthreads Hsched.
  destruct (run_returns net sched self log Hthreads Hsched)
    as (self' & log' & Hrun & Hopen & Hclosed & Hfiltered).
  eexists _, self', log'. split; [exact Hrun|].
  split; [apply length_imap|]. split.
  - intros i port msg Hi Hraise. split.
    + rewrite list_lookup_imap, Hi. simpl.
      unfold answer. rewrite Hraise. reflexivity.
    + apply elem_of_error_ports. exists i.
      rewrite Hraise. auto.
  - intros Hall. split.
    + apply Forall_lookup. intros i d Hd.
      rewrite list_lookup_imap in Hd.
      destruct (ports self !! i) as [port|] eqn:Hi; [|discriminate].
      injection Hd as <-.
      destruct (Hall i port Hi) as [msg Hraise].
      unfold answer. rewrite Hraise. reflexivity.
    + rewrite Hopen, Hclosed, Hfiltered.
      rewrite !chosen_none, !app_nil_r; auto;
        intros i port Hi; destruct (Hall i port Hi) as [msg ->]; reflexivity.
Qed.

Lemma run_error_is_local_witness :
  exists results self' log',
    run (fun _ => unresolved) [1; 0]%nat
        (init "no-such-host.invalid" [22; 80] 1 50, []) =
      Some (Returns results, (self', log')) /\
    length results = 2%nat /\
    results !! 1%nat =
      Some (error_dict 80 (Exception "[Errno -2] Name or service not known")) /\
    Forall (fun d : gmap string PyVal => d !! "status" = Some (VStr "ERROR"))
      results /\
    open_ports self' = [] /\ closed_ports self' = [] /\ filtered_ports self' = [].
Proof.
  destruct (run_error_is_local (fun _ => unresolved) [1; 0]%nat
              (init "no-such-host.invalid" [22; 80] 1 50) [])
    as (results & self' & log' & Hrun & Hlen & Hone & Hall).
  - simpl. lia.
  - unfold schedule. simpl. apply perm_swap.
  - exists results, self', log'.
    split; [exact Hrun|]. split; [exact Hlen|]. split.
    + apply (Hone 1%nat 80 "[Errno -2] Name or service not known");
        reflexivity.
    + apply Hall. intros i port _. eexists. reflexivity.
Defined.

(** C7, as the specification states it, fails: a scan of an empty port list
    returns the empty result list. *)
Lemma empty_port_list_is_scanned :
  ~ rejects_invalid_config (fun _ => answering 0) []
      (init "127.0.0.1" [] 1 50, []).
Proof.
  intros Hrejects.
  destruct Hrejects as (e & w' & Hrun); [left; reflexivity|].
  vm_compute in Hrun. discriminate Hrun.
Qed.

(** C7, as the code has it: nothing checks the port list or the timeout.  A
    scan of an empty port list returns the empty result list and leaves the
    scanner as it was; whatever the timeout, a scan with at least one worker
    returns one outcome per port; the call fails exactly when the number of
    threads is below 1, with the [ValueError] of the executor. *)
Theorem run_fails_without_worker (net : nat -> SocketLayer) (sched : list nat)
    (self : PortScanner) (log : list LogEntry) :
  schedule self sched ->
  (threads self < 1 ->
     run net sched (self, log) =
       Some (Raises (Exception "max_workers must be greater than 0"),
             (self, log))) /\
  (1 <= threads self ->
     exists results w',
       run net sched (self, log) = Some (Returns results, w') /\
       length results = length (ports self)) /\
  (1 <= threads self -> ports self = [] ->
     run net sched (self, log) = Some (Returns [], (self, log))).
Proof.
  intros Hsched. repeat split.
  - intros Hthreads. unfold run, ThreadPoolExecutor; simpl.
    destruct (Z.leb_spec (threads self) 0) as [_|?]; [reflexivity|lia].
  - intros Hthreads.
    destruct (run_returns net sched self log Hthreads Hsched)
      as (self' & log' & Hrun & _).
    eexists _, _. split; [exact Hrun|apply length_imap].
  - intros Hthreads Hports. unfold schedule in Hsched.
    rewrite Hports in Hsched; simpl in Hsched.
    apply Permutation_nil_r in Hsched. subst sched.
    unfold run, ThreadPoolExecutor; simpl.
    destruct (Z.leb_spec (threads self) 0) as [?|_]; [lia|].
    rewrite Hports. reflexivity.
Qed.

Lemma run_fails_without_worker_witness :
  (50 < 1 ->
     run (fun _ => answering 0) [] (init "127.0.0.1" [] 0 50, []) =
       Some (Raises (Exception "max_workers must be greater than 0"),
             (init "127.0.0.1" [] 0 50, []))) /\
  (1 <= 50 ->
     exists results w',
       run (fun _ => answering 0) [] (init "127.0.0.1" [] 0 50, []) =
         Some (Returns results, w') /\
       length results = 0%nat) /\
  (1 <= 50 -> @nil Z = [] ->
     run (fun _ => answering 0) [] (init "127.0.0.1" [] 0 50, []) =
       Some (Returns [], (init "127.0.0.1" [] 0 50, []))).
Proof.
  apply (run_fails_without_worker (fun _ => answering 0) []
           (init "127.0.0.1" [] 0 50) []).
  unfold schedule. simpl. constructor.
Defined.

(** C1, as the specification states it, fails: the port list may name a port
    twice, and when the listener goes away between the two probes the port
    is in [open_ports] and in [closed_ports]. *)
Lemma repeated_port_in_two_buckets :
  ~ scan_partitions flapping [0; 1]%nat (init "192.0.2.7" [80; 80] 1 50, []).
Proof.
  unfold scan_partitions.
  replace (run flapping [0; 1]%nat (init "192.0.2.7" [80; 80] 1 50, []))
    with (Some (Returns [status_dict 80 "OPEN"; status_dict 80 "CLOSED"],
                (append_closed 80 (append_open 80
                                     (init "192.0.2.7" [80; 80] 1 50)),
                 attempt_log (answering 0) "192.0.2.7" 1 80 ++
                 attempt_log (answering ECONNREFUSED) "192.0.2.7" 1 80)))
    by (vm_compute; reflexivity).
  intros (Hopen & _). simpl in Hopen.
  apply (Hopen 80); [|left]; apply list_elem_of_here.
Qed.

(** C1, as the code has it: for a port list without repetition, scanned by a
    scanner fresh from its constructor, the scan returns, [open_ports],
    [closed_ports], [filtered_ports] and the ports of the ERROR entries are
    pairwise disjoint, and a port is in the input exactly when it is in one
    of the four. *)
Theorem run_partitions (net : nat -> SocketLayer) (sched : list nat)
    (tgt : string) (input : list Z) (tmo thr : Z) :
  1 <= thr -> NoDup input -> sched ≡ₚ seq 0 (length input) ->
  scan_partitions net sched (init tgt input tmo thr, []).
Proof.
  intros Hthreads Hnodup Hsched. unfold scan_partitions.
  destruct (run_returns net sched (init tgt input tmo thr) [] Hthreads Hsched)
    as (self' & log' & -> & Hopen & Hclosed & Hfiltered).
  simpl in *. unfold partitions.
  rewrite Hopen, Hclosed, Hfiltered. clear Hopen Hclosed Hfiltered.
  assert (Hone : forall p i j, input !! i = Some p -> input !! j = Some p -> i = j).
  { intros p i j Hi Hj. eapply NoDup_lookup; eassumption. }
  repeat split.
  - intros p Ho [Hc|[Hf|He]];
      apply elem_of_chosen in Ho as (i & _ & Hi & Hvi);
      [apply elem_of_chosen in Hc as (j & _ & Hj & Hvj)
      |apply elem_of_chosen in Hf as (j & _ & Hj & Hvj)
      |apply elem_of_error_ports in He as (j & Hj & Hvj)];
      rewrite (Hone p i j Hi Hj) in Hvi;
      destruct (verdict _); discriminate.
  - intros p Hc [Hf|He];
      apply elem_of_chosen in Hc as (i & _ & Hi & Hvi);
      [apply elem_of_chosen in Hf as (j & _ & Hj & Hvj)
      |apply elem_of_error_ports in He as (j & Hj & Hvj)];
      rewrite (Hone p i j Hi Hj) in Hvi;
      destruct (verdict _); discriminate.
  - intros p Hf He.
    apply elem_of_chosen in Hf as (i & _ & Hi & Hvi).
    apply elem_of_error_ports in He as (j & Hj & Hvj).
    rewrite (Hone p i j Hi Hj) in Hvi.
    destruct (verdict _); discriminate.
  - intros Hin. apply list_elem_of_lookup in Hin as [i Hi].
    assert (Hrun : i ∈ sched).
    { rewrite Hsched. apply elem_of_seq.
      apply lookup_lt_Some in Hi. lia. }
    rewrite !elem_of_chosen, elem_of_error_ports.
    destruct (verdict (attempt (net i) tgt tmo p)) eqn:Hv.
    + left. exists i. rewrite Hv. auto.
    + right; left. exists i. rewrite Hv. auto.
    + right; right; left. exists i. rewrite Hv. auto.
    + right; right; right. exists i. rewrite Hv. auto.
  - rewrite !elem_of_chosen, elem_of_error_ports.
    intros [(i & _ & Hi & _)|[(i & _ & Hi & _)|[(i & _ & Hi & _)|(i & Hi & _)]]];
      apply list_elem_of_lookup; eauto.
Qed.

Lemma run_partitions_witness :
  scan_partitions flapping [1; 0]%nat (init "192.0.2.7" [80; 443] 1 50, []).
Proof.
  apply (run_partitions flapping [1; 0]%nat "192.0.2.7" [80; 443] 1 50).
  - lia.
  - apply NoDup_cons. split; [|apply NoDup_singleton].
    intros Hin. apply list_elem_of_singleton in Hin. discriminate Hin.
  - simpl. apply perm_swap.
Defined.

(* ===================================================================== *)
(** * Properties of the port specification *)
(* ===================================================================== *)

(** ** Substrings without the separator *)

Lemma contains_app (c : ascii) (s1 s2 : string) :
  contains c (s1 +:+ s2) = contains c s1 || contains c s2.
Proof.
  induction s1 as [|c1 s1 IH]; simpl; [reflexivity|].
  rewrite IH. apply orb_assoc.
Qed.

Lemma split_whole (c : ascii) (s : string) :
  contains c s = false -> split c s = [s].
Proof.
  induction s as [|c1 s IH]; simpl; [reflexivity|].
  intros Hc. apply orb_false_iff in Hc as [-> Hs].
  rewrite (IH Hs). reflexivity.
Qed.

Lemma split_first (c : ascii) (s1 s2 : string) :
  contains c s1 = false ->
  split c (s1 +:+ String c s2) = s1 :: split c s2.
Proof.
  induction s1 as [|c1 s1 IH]; simpl.
  - intros _. rewrite Ascii.eqb_refl. reflexivity.
  - intros Hc. apply orb_false_iff in Hc as [-> Hs].
    rewrite (IH Hs). reflexivity.
Qed.

Lemma split_join (pieces : list string) :
  pieces <> [] ->
  Forall (fun p => contains "," p = false) pieces ->
  split "," (join pieces) = pieces.
Proof.
  induction pieces as [|p pieces IH]; [congruence|].
  intros _ Hall. apply Forall_cons in Hall as [Hp Hall].
  destruct pieces as [|q pieces]; simpl.
  - apply split_whole. assumption.
  - rewrite split_first by assumption.
    f_equal. apply IH; [discriminate|assumption].
Qed.

Lemma contains_join (c : ascii) (pieces : list string) :
  Ascii.eqb "," c = false ->
  Forall (fun p => contains c p = false) pieces ->
  contains c (join pieces) = false.
Proof.
  intros Hc. induction pieces as [|p pieces IH]; [reflexivity|].
  intros Hall. apply Forall_cons in Hall as [Hp Hall].
  destruct pieces as [|q pieces]; [assumption|].
  change (join (p :: q :: pieces))
    with (p +:+ String "," (join (q :: pieces))).
  rewrite contains_app, Hp.
  change (contains c (String "," (join (q :: pieces))))
    with (Ascii.eqb "," c || contains c (join (q :: pieces))).
  rewrite Hc. apply IH. assumption.
Qed.

(** ** Decimal numerals *)

Lemma pretty_N_char_digit (d : N) : is_digit (pretty_N_char d) = true.
Proof. unfold pretty_N_char. repeat case_match; reflexivity. Qed.

Lemma pretty_N_char_value (d : N) :
  (d < 10)%N -> digit_value (pretty_N_char d) = Z.of_N d.
Proof.
  intros Hd.
  assert (d = 0 \/ d = 1 \/ d = 2 \/ d = 3 \/ d = 4 \/ d = 5 \/ d = 6 \/
          d = 7 \/ d = 8 \/ d = 9)%N as Hcases by lia.
  repeat (destruct Hcases as [->|Hcases]; [reflexivity|]).
  subst d. reflexivity.
Qed.

Lemma digit_not_other (c1 c2 : ascii) :
  is_digit c1 = true -> is_digit c2 = false -> Ascii.eqb c1 c2 = false.
Proof.
  intros H1 H2. apply Ascii.eqb_neq. intros ->. congruence.
Qed.

(** A numeral has no character that is not a digit. *)
Lemma contains_pretty_N_go (c : ascii) (x : N) :
  is_digit c = false ->
  forall s, contains c (pretty_N_go x s) = contains c s.
Proof.
  intros Hc. induction (N.lt_wf_0 x) as [x _ IH]. intros s.
  destruct (decide (x = 0)%N) as [->|Hx]; [reflexivity|].
  rewrite pretty_N_go_step by lia.
  rewrite IH by (apply N.div_lt; lia). simpl.
  rewrite (digit_not_other _ c (pretty_N_char_digit _) Hc). reflexivity.
Qed.

Lemma contains_numeral (c : ascii) (n : N) :
  is_digit c = false -> contains c (numeral n) = false.
Proof.
  intros Hc. unfold numeral, pretty, pretty_N.
  destruct (decide (n = 0)%N) as [_|_].
  - change (contains c "0") with (Ascii.eqb "0" c || false).
    rewrite (digit_not_other "0" c eq_refl Hc). reflexivity.
  - apply (contains_pretty_N_go c n Hc "").
Qed.

(** A numeral starts with a digit. *)
Lemma pretty_N_go_head (x : N) :
  (0 < x)%N ->
  forall s, exists c s', pretty_N_go x s = String c s' /\ is_digit c = true.
Proof.
  induction (N.lt_wf_0 x) as [x _ IH]. intros Hx s.
  rewrite pretty_N_go_step by assumption.
  destruct (decide (x `div` 10 = 0)%N) as [->|Hdiv].
  - rewrite pretty_N_go_0. eexists _, _. split; [reflexivity|].
    apply pretty_N_char_digit.
  - apply IH.
    + apply N.div_lt; lia.
    + apply N.neq_0_lt_0. assumption.
Qed.

(** Reading a numeral: the digits of [x] shift the accumulator. *)
Lemma digits_pretty_N_go (x : N) :
  (0 < x)%N ->
  exists k, 0 <= k /\
    forall acc b s,
      digits acc b (pretty_N_go x s) = digits (acc * 10 ^ k + Z.of_N x) true s.
Proof.
  induction (N.lt_wf_0 x) as [x _ IH]. intros Hx.
  destruct (decide (x `div` 10 = 0)%N) as [Hdiv|Hdiv].
  - exists 1. split; [lia|]. intros acc b s.
    rewrite pretty_N_go_step, Hdiv, pretty_N_go_0 by assumption. simpl.
    rewrite pretty_N_char_digit.
    rewrite pretty_N_char_value by (apply N.mod_lt; lia).
    f_equal. pose proof (N.div_mod x 10). lia.
  - destruct (IH (x `div` 10)%N) as (k & Hk & Hread);
      [apply N.div_lt; lia|apply N.neq_0_lt_0; assumption|].
    exists (k + 1). split; [lia|]. intros acc b s.
    rewrite pretty_N_go_step, Hread by assumption. simpl.
    rewrite pretty_N_char_digit.
    rewrite pretty_N_char_value by (apply N.mod_lt; lia).
    f_equal. rewrite Z.pow_add_r by lia.
    pose proof (N.div_mod x 10). lia.
Qed.

Lemma int_digit_head (c : ascii) (s : string) :
  is_digit c = true ->
  int (String c s) =
    match digits 0 false (String c s) with
    | Some z => Ok z
    | None => Fails (invalid_literal (String c s))
    end.
Proof.
  intros Hc. unfold int.
  destruct c as [[] [] [] [] [] [] [] []]; try discriminate Hc; reflexivity.
Qed.

(** [int] reads a numeral back. *)
Lemma int_numeral (n : N) : int (numeral n) = Ok (Z.of_N n).
Proof.
  unfold numeral, pretty, pretty_N.
  destruct (decide (n = 0)%N) as [->|Hn]; [reflexivity|].
  destruct (pretty_N_go_head n ltac:(lia) "") as (c & s & Hs & Hc).
  destruct (digits_pretty_N_go n ltac:(lia)) as (k & _ & Hread).
  rewrite Hs, (int_digit_head c s Hc), <- Hs, Hread. reflexivity.
Qed.

Lemma ints_numerals (ns : list N) :
  ints (numeral <$> ns) = Ok (Z.of_N <$> ns).
Proof.
  induction ns as [|n ns IH]; [reflexivity|].
  rewrite !fmap_cons. cbn [ints].
  rewrite int_numeral, IH. reflexivity.
Qed.

Lemma ints_fails_iff (pieces : list string) :
  succeeds (ints pieces) = false <->
  exists tok, tok ∈ pieces /\ succeeds (int tok) = false.
Proof.
  induction pieces as [|p pieces IH]; simpl.
  - split; [discriminate|]. intros (tok & Hin & _). inversion Hin.
  - destruct (int p) as [z|e] eqn:Hp; simpl.
    + destruct (ints pieces) as [zs|e]; simpl.
      * split; [discriminate|].
        intros (tok & Hin & Htok).
        apply elem_of_cons in Hin as [->|Hin].
        -- rewrite Hp in Htok. discriminate Htok.
        -- apply IH. eauto.
      * split; [|reflexivity]. intros _.
        destruct IH as [(tok & Hin & Htok) _]; [reflexivity|].
        exists tok. split; [right; assumption|assumption].
    + split; [|reflexivity]. intros _.
      exists p. split; [left|rewrite Hp; reflexivity].
Qed.

(** ** What makes the parsing fail *)

Lemma unpack2_fails_iff (pieces : list string) :
  succeeds (unpack2 pieces) = false <->
  (exists tok, tok ∈ pieces /\ succeeds (int tok) = false) \/
  length pieces <> 2%nat.
Proof.
  destruct pieces as [|p1 [|p2 [|p3 pieces]]]; simpl.
  - split; [right; discriminate|reflexivity].
  - destruct (int p1); simpl; (split; [right; discriminate|reflexivity]).
  - destruct (int p1) as [z1|e1] eqn:H1; simpl.
    + destruct (int p2) as [z2|e2] eqn:H2; simpl.
      * split; [discriminate|].
        intros [(tok & Hin & Htok)|Hlen]; [|congruence].
        apply elem_of_cons in Hin as [->|Hin].
        -- rewrite H1 in Htok. discriminate Htok.
        -- apply list_elem_of_singleton in Hin as ->.
           rewrite H2 in Htok. discriminate Htok.
      * split; [|reflexivity]. intros _. left. exists p2.
        split; [right; left|rewrite H2; reflexivity].
    + split; [|reflexivity]. intros _. left. exists p1.
      split; [left|rewrite H1; reflexivity].
  - split; [right; discriminate|]. intros _.
    destruct (int p1); [|reflexivity].
    destruct (int p2); [|reflexivity].
    destruct (int p3); reflexivity.
Qed.

Lemma parse_ports_fails_iff (arg : string) :
  succeeds (parse_ports arg) = false <->
  (exists tok, tok ∈ tokens arg /\ succeeds (int tok) = false) \/
  (contains "-" arg = true /\ length (split "-" arg) <> 2%nat).
Proof.
  unfold parse_ports, tokens.
  destruct (contains "-" arg) eqn:Hdash.
  - pose proof (unpack2_fails_iff (split "-" arg)) as Hunpack.
    destruct (unpack2 _) as [[start end_]|e]; simpl in *; split.
    + intros Hfails. apply Hunpack in Hfails as [Htok|Hlen]; auto.
    + intros [Htok|[_ Hlen]]; apply Hunpack; auto.
    + intros Hfails. apply Hunpack in Hfails as [Htok|Hlen]; auto.
    + reflexivity.
  - rewrite ints_fails_iff. split; [auto|].
    intros [H|[Habsurd _]]; [assumption|discriminate].
Qed.

Lemma parse_ports_numeral (n : N) : parse_ports (numeral n) = Ok [Z.of_N n].
Proof.
  unfold parse_ports.
  rewrite (contains_numeral "-" n eq_refl).
  rewrite (split_whole "," _ (contains_numeral "," n eq_refl)). simpl.
  rewrite int_numeral. reflexivity.
Qed.

Lemma parse_ports_range (a b : N) :
  parse_ports (numeral a +:+ String "-" (numeral b)) =
    Ok (seqZ (Z.of_N a) (Z.of_N b + 1 - Z.of_N a)).
Proof.
  unfold parse_ports.
  rewrite contains_app. simpl contains at 2.
  rewrite orb_true_r.
  rewrite (split_first "-" _ _ (contains_numeral "-" a eq_refl)).
  rewrite (split_whole "-" _ (contains_numeral "-" b eq_refl)).
  cbn [unpack2]. rewrite !int_numeral. reflexivity.
Qed.

(** C8, as the specification states it, fails: ["70000"] must be rejected
    and is accepted. *)
Lemma port_70000_is_accepted : ~ validates_ports "70000".
Proof.
  intros [_ Hfails].
  assert (Hok : succeeds (parse_ports "70000") = true) by reflexivity.
  rewrite Hfails in Hok; [discriminate Hok|reflexivity].
Qed.

(** C8, as the code has it: the parsing checks the literals and nothing
    else.  It fails, with [ValueError], exactly when a token is not an
    integer literal or a specification with a dash does not have two tokens.
    Every numeral alone gives that one port, whatever its value, and every
    range gives the ports from its start to its end, none when the start is
    above the end: ["70000"] gives [[70000]], ["0"] gives [[0]] and ["5-3"]
    gives the empty list. *)
Theorem parse_ports_checks_literals_only :
  (forall arg,
      succeeds (parse_ports arg) = false <->
      (exists tok, tok ∈ tokens arg /\ succeeds (int tok) = false) \/
      (contains "-" arg = true /\ length (split "-" arg) <> 2%nat)) /\
  (forall n : N, parse_ports (numeral n) = Ok [Z.of_N n]) /\
  (forall a b : N,
      parse_ports (numeral a +:+ String "-" (numeral b)) =
        Ok (seqZ (Z.of_N a) (Z.of_N b + 1 - Z.of_N a))) /\
  parse_ports "70000" = Ok [70000] /\
  parse_ports "0" = Ok [0] /\
  parse_ports "5-3" = Ok [].
Proof.
  split; [exact parse_ports_fails_iff|].
  split; [exact parse_ports_numeral|].
  split; [exact parse_ports_range|].
  repeat split; reflexivity.
Qed.

(** C9, as the specification states it, fails: ["80,22,80,443"] keeps its
    second 80. *)
Lemma second_80_is_kept : ~ removes_duplicates "80,22,80,443".
Proof.
  intros Hdedup.
  specialize (Hdedup [80; 22; 80; 443] eq_refl).
  vm_compute in Hdedup. discriminate Hdedup.
Qed.

(** C9, as the code has it: an explicit list resolves to the value of each
    of its tokens, in the order of the list, a port written twice being
    there twice; ["80,22,80,443"] gives [[80; 22; 80; 443]]. *)
Theorem parse_ports_keeps_every_token (ns : list N) :
  ns <> [] ->
  parse_ports (join (numeral <$> ns)) = Ok (Z.of_N <$> ns).
Proof.
  intros Hns. unfold parse_ports.
  rewrite contains_join; [|reflexivity|].
  2: { apply Forall_fmap, Forall_forall. intros n _.
       apply (contains_numeral "-" n). reflexivity. }
  rewrite split_join.
  - apply ints_numerals.
  - destruct ns; [congruence|discriminate].
  - apply Forall_fmap, Forall_forall. intros n _.
    apply (contains_numeral "," n). reflexivity.
Qed.

Lemma parse_ports_keeps_every_token_witness :
  parse_ports "80,22,80,443" = Ok [80; 22; 80; 443].
Proof.
  apply (parse_ports_keeps_every_token [80; 22; 80; 443]%N).
  discriminate.
Defined.

(* ===================================================================== *)
(** * Further properties of a probe and of a scan *)
(* ===================================================================== *)

(** X1: the socket calls of a probe are an initial part of [socket],
    [settimeout], [connect_ex], [close], in that order, each made once and
    only after the one before it returned: the probe opens one socket at
    most, connects once at most, never retries, and closes nothing it did
    not open.  The calls logged before the probe are kept. *)
Theorem scan_port_call_order (io : SocketLayer) (port : Z)
    (self : PortScanner) (log : list LogEntry) :
  exists calls,
    (scan_port io port (self, log)).2.2 = log ++ calls /\
    call <$> calls `prefix_of`
      [ CallSocket; CallSetTimeout (timeout self);
        CallConnectEx (target self) port; CallClose ] /\
    (forall i e, calls !! i = Some e -> (S i < length calls)%nat -> ok e = true) /\
    socket_calls calls = 1%nat /\
    (connect_calls calls <= 1)%nat /\
    (closed calls <= opened calls <= 1)%nat.
Proof.
  rewrite scan_port_eq.
  exists (attempt_log io (target self) (timeout self) port).
  split; [reflexivity|]. unfold attempt_log.
  destruct (socket_socket io) as [[]|e1];
    [destruct (settimeout io (timeout self)) as [[]|e2];
     [destruct (connect_ex io (target self) port) as [code|e3];
      [destruct (close io) as [[]|e4]| ] | ] | ];
    (split; [eexists; reflexivity|]);
    (split;
     [intros i e Hi Hlen;
      repeat (destruct i as [|i];
              [injection Hi as <-; simpl in Hlen; try lia; reflexivity|]);
      discriminate Hi
     |]);
    cbv; repeat split; lia.
Qed.

Lemma execute_trace (net : nat -> SocketLayer) (tgt : string) (tmo : Z)
    (tasks : list Z) (sched : list nat) :
  forall futures self log,
    target self = tgt -> timeout self = tmo ->
    execute net tasks sched futures (self, log) =
      (foldl (step_futures net tgt tmo tasks) futures sched,
       (foldl (step_self net tgt tmo tasks) self sched,
        log ++ task_logs net tgt tmo tasks sched)).
Proof.
  induction sched as [|i sched IH]; intros futures self log Htgt Htmo; simpl.
  - rewrite app_nil_r. reflexivity.
  - unfold step_futures at 2, step_self at 2.
    destruct (tasks !! i) as [port|]; [|apply IH; assumption].
    rewrite scan_port_eq, Htgt, Htmo, IH, <- app_assoc; [reflexivity| |].
    + rewrite <- Htgt. apply merge_frame.
    + rewrite <- Htmo. apply merge_frame.
Qed.

(** Every way [run] can return. *)
Lemma run_inv (net : nat -> SocketLayer) (sched : list nat)
    (self self' : PortScanner) (log log' : list LogEntry)
    (o : outcome (list (gmap string PyVal))) :
  run net sched (self, log) = Some (o, (self', log')) ->
  (threads self <= 0 /\ self' = self /\ log' = log) \/
  (1 <= threads self /\
   self' = foldl (step_self net (target self) (timeout self) (ports self))
             self sched /\
   log' = log ++ task_logs net (target self) (timeout self) (ports self) sched).
Proof.
  unfold run, ThreadPoolExecutor; simpl.
  destruct (Z.leb_spec (threads self) 0) as [Hle|Hlt].
  - intros Hrun. injection Hrun as _ <- <-. left. auto.
  - rewrite (execute_trace net (target self) (timeout self)) by reflexivity.
    destruct (collect _ _); [|discriminate].
    intros Hrun. injection Hrun as _ <- <-. right. split; [lia|auto].
Qed.

(** X2: a run never touches the configuration of the scanner and never removes
    or reorders what the buckets and the socket log hold: it only appends.
    The buckets are not reset, so a second run of the same scanner adds to
    the entries of the first. *)
Theorem run_only_appends (net : nat -> SocketLayer) (sched : list nat)
    (self self' : PortScanner) (log log' : list LogEntry)
    (o : outcome (list (gmap string PyVal))) :
  run net sched (self, log) = Some (o, (self', log')) ->
  target self' = target self /\ ports self' = ports self /\
  timeout self' = timeout self /\ threads self' = threads self /\
  open_ports self `prefix_of` open_ports self' /\
  closed_ports self `prefix_of` closed_ports self' /\
  filtered_ports self `prefix_of` filtered_ports self' /\
  log `prefix_of` log'.
Proof.
  intros Hrun.
  apply run_inv in Hrun as [(_ & -> & ->)|(_ & -> & ->)].
  - repeat split; reflexivity.
  - destruct (step_self_frame net (target self) (timeout self) (ports self)
                sched self) as (-> & -> & -> & ->).
    destruct (step_self_buckets net (target self) (timeout self) (ports self)
                sched self) as (-> & -> & ->).
    repeat split; eexists; reflexivity.
Qed.

Lemma run_only_appends_witness :
  let self' := append_closed 80 (append_open 80 used_scanner) in
  target self' = "192.0.2.7" /\ ports self' = [80; 80] /\
  timeout self' = 1 /\ threads self' = 50 /\
  [22] `prefix_of` open_ports self' /\
  [] `prefix_of` closed_ports self' /\
  [] `prefix_of` filtered_ports self' /\
  [] `prefix_of`
    attempt_log (answering 0) "192.0.2.7" 1 80 ++
    attempt_log (answering ECONNREFUSED) "192.0.2.7" 1 80.
Proof.
  apply (run_only_appends flapping [0; 1]%nat used_scanner
           (append_closed 80 (append_open 80 used_scanner)) []
           (attempt_log (answering 0) "192.0.2.7" 1 80 ++
            attempt_log (answering ECONNREFUSED) "192.0.2.7" 1 80)
           (Returns [status_dict 80 "OPEN"; status_dict 80 "CLOSED"])).
  vm_compute. reflexivity.
Defined.

(** The scan with its socket log: the closed form of [run_fold], the log
    included. *)
Lemma run_trace (net : nat -> SocketLayer) (sched : list nat)
    (self : PortScanner) (log : list LogEntry) :
  1 <= threads self -> schedule self sched ->
  run net sched (self, log) =
    Some (Returns (imap (answer net (target self) (timeout self)) (ports self)),
          (foldl (step_self net (target self) (timeout self) (ports self))
             self sched,
           log ++ task_logs net (target self) (timeout self) (ports self) sched)).
Proof.
  intros Hthreads Hsched.
  destruct (run_fold net (target self) (timeout self) (ports self) sched
              self log eq_refl eq_refl eq_refl Hthreads Hsched) as [log' Hrun].
  rewrite Hrun. f_equal. f_equal. f_equal.
  apply run_inv in Hrun as [(Hle & _)|(_ & _ & ->)]; [lia|reflexivity].
Qed.

(** Reading a list at all its indices gives the list. *)
Lemma omap_lookup_seq (l0 l : list Z) :
  omap (fun i => (l0 ++ l) !! i) (seq (length l0) (length l)) = l.
Proof.
  revert l0. induction l as [|x l IH]; intros l0; simpl; [reflexivity|].
  rewrite list_lookup_middle by reflexivity. f_equal.
  specialize (IH (l0 ++ [x])).
  rewrite <- app_assoc, length_app, Nat.add_1_r in IH. exact IH.
Qed.

Lemma omap_lookup_schedule (tasks : list Z) (sched : list nat) :
  sched ≡ₚ seq 0 (length tasks) ->
  omap (fun i => tasks !! i) sched ≡ₚ tasks.
Proof.
  intros ->. pose proof (omap_lookup_seq [] tasks) as Hall.
  simpl in Hall. rewrite Hall. reflexivity.
Qed.

(** Each scheduled task puts its port under one of the four verdicts. *)
Lemma chosen_four_way (net : nat -> SocketLayer) (tgt : string) (tmo : Z)
    (tasks : list Z) (sched : list nat) :
  chosen is_open net tgt tmo tasks sched ++
  chosen is_closed net tgt tmo tasks sched ++
  chosen is_filtered net tgt tmo tasks sched ++
  chosen is_error net tgt tmo tasks sched
  ≡ₚ omap (fun i => tasks !! i) sched.
Proof.
  unfold chosen.
  induction sched as [|i sched IH]; simpl; [reflexivity|].
  destruct (tasks !! i) as [port|]; simpl; [|exact IH].
  destruct (verdict _); simpl.
  - apply perm_skip, IH.
  - rewrite <- Permutation_middle. apply perm_skip, IH.
  - rewrite app_assoc, <- Permutation_middle, <- app_assoc.
    apply perm_skip, IH.
  - rewrite 2!app_assoc, <- Permutation_middle, <- 2!app_assoc.
    apply perm_skip, IH.
Qed.

Lemma error_ports_cons (d : gmap string PyVal)
    (results : list (gmap string PyVal)) :
  error_ports (d :: results) =
    match d !! "status", d !! "port" with
    | Some (VStr "ERROR"), Some (VInt p) => p :: error_ports results
    | _, _ => error_ports results
    end.
Proof.
  unfold error_ports. simpl.
  destruct (d !! "status") as [[z|s]|]; try reflexivity.
  destruct (decide (s = "ERROR")) as [->|Hne].
  - destruct (d !! "port") as [[p|s]|]; reflexivity.
  - repeat (destruct s as [|[[] [] [] [] [] [] [] []] s]; try reflexivity);
      congruence.
Qed.

Lemma chosen_cons (P : Verdict -> bool) (net : nat -> SocketLayer)
    (tgt : string) (tmo : Z) (tasks : list Z) (i : nat) (sched : list nat) :
  chosen P net tgt tmo tasks (i :: sched) =
    match tasks !! i with
    | Some port =>
        if P (verdict (attempt (net i) tgt tmo port))
        then port :: chosen P net tgt tmo tasks sched
        else chosen P net tgt tmo tasks sched
    | None => chosen P net tgt tmo tasks sched
    end.
Proof.
  unfold chosen. simpl.
  destruct (tasks !! i) as [port|]; [|reflexivity].
  destruct (P _); reflexivity.
Qed.

(** The error list of the results, read off the verdicts of the tasks. *)
Lemma error_ports_imap (net : nat -> SocketLayer) (tgt : string) (tmo : Z)
    (l0 l : list Z) :
  error_ports (imap (fun i => answer net tgt tmo (length l0 + i)) l) =
  chosen is_error net tgt tmo (l0 ++ l) (seq (length l0) (length l)).
Proof.
  revert l0. induction l as [|x l IH]; intros l0; [reflexivity|].
  rewrite imap_cons, error_ports_cons.
  change (seq (length l0) (length (x :: l)))
    with (length l0 :: seq (S (length l0)) (length l)).
  rewrite chosen_cons, list_lookup_middle by reflexivity.
  rewrite Nat.add_0_r.
  specialize (IH (l0 ++ [x])).
  rewrite <- app_assoc, length_app, Nat.add_1_r in IH.
  change ([x] ++ l) with (x :: l) in IH.
  rewrite <- IH.
  rewrite (imap_ext _ (fun i => answer net tgt tmo (S (length l0) + i)) l)
    by (intros; unfold compose; rewrite Nat.add_succ_r; reflexivity).
  unfold answer.
  destruct (verdict (attempt (net (length l0)) tgt tmo x)); reflexivity.
Qed.

(** X3: nothing is lost and nothing is counted twice, repeated ports included:
    after a scan, the three buckets and the error list together hold what
    the buckets held before and the input ports, each occurrence once. *)
Theorem run_conserves_ports (net : nat -> SocketLayer) (sched : list nat)
    (self : PortScanner) (log : list LogEntry) :
  1 <= threads self -> schedule self sched ->
  exists results self' log',
    run net sched (self, log) = Some (Returns results, (self', log')) /\
    open_ports self' ++ closed_ports self' ++ filtered_ports self' ++
      error_ports results
    ≡ₚ open_ports self ++ closed_ports self ++ filtered_ports self ++
       ports self.
Proof.
  intros Hthreads Hsched.
  destruct (run_returns net sched self log Hthreads Hsched)
    as (self' & log' & Hrun & Hopen & Hclosed & Hfiltered).
  eexists _, self', log'. split; [exact Hrun|].
  rewrite Hopen, Hclosed, Hfiltered. clear Hrun Hopen Hclosed Hfiltered.
  assert (Herr : error_ports
                   (imap (answer net (target self) (timeout self)) (ports self))
                 = chosen is_error net (target self) (timeout self) (ports self)
                     (seq 0 (length (ports self))))
    by exact (error_ports_imap net (target self) (timeout self) [] (ports self)).
  rewrite Herr. clear Herr.
  assert (Hsame : chosen is_error net (target self) (timeout self) (ports self)
                    (seq 0 (length (ports self)))
                  ≡ₚ chosen is_error net (target self) (timeout self)
                       (ports self) sched).
  { unfold chosen. rewrite Hsched. reflexivity. }
  rewrite Hsame. clear Hsame.
  pose proof (chosen_four_way net (target self) (timeout self) (ports self)
                sched) as Hfour.
  rewrite (omap_lookup_schedule (ports self) sched Hsched) in Hfour.
  revert Hfour.
  generalize (chosen is_open net (target self) (timeout self) (ports self) sched),
    (chosen is_closed net (target self) (timeout self) (ports self) sched),
    (chosen is_filtered net (target self) (timeout self) (ports self) sched),
    (chosen is_error net (target self) (timeout self) (ports self) sched).
  intros lo lc lf le Hfour. rewrite <- Hfour.
  rewrite <- !app_assoc. apply Permutation_app_head.
  rewrite Permutation_app_swap_app. apply Permutation_app_head.
  rewrite (app_assoc lo lc).
  rewrite (Permutation_app_swap_app (lo ++ lc) (filtered_ports self)).
  apply Permutation_app_head.
  rewrite <- !app_assoc. reflexivity.
Qed.

Lemma run_conserves_ports_witness :
  exists results self' log',
    run flapping [1; 0]%nat (used_scanner, []) =
      Some (Returns results, (self', log')) /\
    open_ports self' ++ closed_ports self' ++ filtered_ports self' ++
      error_ports results
    ≡ₚ [22] ++ [] ++ [] ++ [80; 80].
Proof.
  apply (run_conserves_ports flapping [1; 0]%nat used_scanner []).
  - simpl. lia.
  - unfold schedule. simpl. apply perm_swap.
Defined.

Lemma chosen_Permutation (P : Verdict -> bool) (net : nat -> SocketLayer)
    (tgt : string) (tmo : Z) (tasks : list Z) (sched1 sched2 : list nat) :
  sched1 ≡ₚ sched2 ->
  chosen P net tgt tmo tasks sched1 ≡ₚ chosen P net tgt tmo tasks sched2.
Proof. intros Hperm. unfold chosen. rewrite Hperm. reflexivity. Qed.

Lemma task_logs_Permutation (net : nat -> SocketLayer) (tgt : string)
    (tmo : Z) (tasks : list Z) (sched1 sched2 : list nat) :
  sched1 ≡ₚ sched2 ->
  task_logs net tgt tmo tasks sched1 ≡ₚ task_logs net tgt tmo tasks sched2.
Proof. intros Hperm. unfold task_logs. apply Permutation_flat_map, Hperm. Qed.

(** X4: the order in which the pool runs the tasks does not show in what the
    scan returns: two schedules give the same result list, and buckets and
    socket logs that differ in the order of their entries only. *)
Theorem run_schedule_independent (net : nat -> SocketLayer)
    (sched1 sched2 : list nat) (self : PortScanner) (log : list LogEntry) :
  1 <= threads self -> schedule self sched1 -> schedule self sched2 ->
  exists results self1 log1 self2 log2,
    run net sched1 (self, log) = Some (Returns results, (self1, log1)) /\
    run net sched2 (self, log) = Some (Returns results, (self2, log2)) /\
    open_ports self1 ≡ₚ open_ports self2 /\
    closed_ports self1 ≡ₚ closed_ports self2 /\
    filtered_ports self1 ≡ₚ filtered_ports self2 /\
    log1 ≡ₚ log2.
Proof.
  intros Hthreads Hsched1 Hsched2.
  assert (Hperm : sched1 ≡ₚ sched2).
  { unfold schedule in *. rewrite Hsched1, Hsched2. reflexivity. }
  eexists _, _, _, _, _.
  split; [apply run_trace; assumption|].
  split; [apply run_trace; assumption|].
  destruct (step_self_buckets net (target self) (timeout self) (ports self)
              sched1 self) as (-> & -> & ->).
  destruct (step_self_buckets net (target self) (timeout self) (ports self)
              sched2 self) as (-> & -> & ->).
  repeat split; apply Permutation_app_head;
    auto using chosen_Permutation, task_logs_Permutation.
Qed.

Lemma run_schedule_independent_witness :
  exists results self1 log1 self2 log2,
    run flapping [0; 1]%nat (used_scanner, []) =
      Some (Returns results, (self1, log1)) /\
    run flapping [1; 0]%nat (used_scanner, []) =
      Some (Returns results, (self2, log2)) /\
    open_ports self1 ≡ₚ open_ports self2 /\
    closed_ports self1 ≡ₚ closed_ports self2 /\
    filtered_ports self1 ≡ₚ filtered_ports self2 /\
    log1 ≡ₚ log2.
Proof.
  apply (run_schedule_independent flapping [0; 1]%nat [1; 0]%nat used_scanner []).
  - simpl. lia.
  - unfold schedule. simpl. reflexivity.
  - unfold schedule. simpl. apply perm_swap.
Defined.

(** ** Counting the socket calls of a scan *)

Lemma socket_calls_app (l1 l2 : list LogEntry) :
  socket_calls (l1 ++ l2) = (socket_calls l1 + socket_calls l2)%nat.
Proof. unfold socket_calls. rewrite filter_app, length_app. reflexivity. Qed.

Lemma connect_calls_app (l1 l2 : list LogEntry) :
  connect_calls (l1 ++ l2) = (connect_calls l1 + connect_calls l2)%nat.
Proof. unfold connect_calls. rewrite filter_app, length_app. reflexivity. Qed.

Lemma opened_app (l1 l2 : list LogEntry) :
  opened (l1 ++ l2) = (opened l1 + opened l2)%nat.
Proof. unfold opened. rewrite filter_app, length_app. reflexivity. Qed.

Lemma closed_app (l1 l2 : list LogEntry) :
  closed (l1 ++ l2) = (closed l1 + closed l2)%nat.
Proof. unfold closed. rewrite filter_app, length_app. reflexivity. Qed.

(** The counts of one probe. *)
Lemma attempt_log_counts (io : SocketLayer) (host : string) (t port : Z) :
  socket_calls (attempt_log io host t port) = 1%nat /\
  (connect_calls (attempt_log io host t port) <= 1)%nat /\
  (closed (attempt_log io host t port)
   <= opened (attempt_log io host t port) <= 1)%nat /\
  (length (attempt_log io host t port) <= 4)%nat.
Proof.
  unfold attempt_log.
  destruct (socket_socket io) as [[]|e1];
    [destruct (settimeout io t) as [[]|e2];
     [destruct (connect_ex io host port) as [code|e3];
      [destruct (close io) as [[]|e4]| ] | ] | ];
    cbv; repeat split; lia.
Qed.

Lemma length_omap_cons {A B} (f : A -> option B) (x : A) (l : list A) :
  length (omap f (x :: l)) =
    match f x with
    | Some _ => S (length (omap f l))
    | None => length (omap f l)
    end.
Proof. simpl. destruct (f x); reflexivity. Qed.

Lemma task_logs_counts (net : nat -> SocketLayer) (tgt : string) (tmo : Z)
    (tasks : list Z) (sched : list nat) :
  socket_calls (task_logs net tgt tmo tasks sched) =
    length (omap (fun i => tasks !! i) sched) /\
  (connect_calls (task_logs net tgt tmo tasks sched)
   <= length (omap (fun i => tasks !! i) sched))%nat /\
  (closed (task_logs net tgt tmo tasks sched)
   <= opened (task_logs net tgt tmo tasks sched)
   <= length (omap (fun i => tasks !! i) sched))%nat /\
  (length (task_logs net tgt tmo tasks sched)
   <= 4 * length (omap (fun i => tasks !! i) sched))%nat.
Proof.
  induction sched as [|i sched IH]; [cbv; repeat split; lia|].
  change (task_logs net tgt tmo tasks (i :: sched))
    with (match tasks !! i with
          | Some port => attempt_log (net i) tgt tmo port
          | None => []
          end ++ task_logs net tgt tmo tasks sched).
  rewrite socket_calls_app, connect_calls_app, opened_app, closed_app,
    length_app, length_omap_cons.
  destruct (tasks !! i) as [port|].
  - pose proof (attempt_log_counts (net i) tgt tmo port). lia.
  - change (socket_calls []) with 0%nat. change (connect_calls []) with 0%nat.
    change (opened []) with 0%nat. change (closed []) with 0%nat.
    change (length (@nil LogEntry)) with 0%nat. lia.
Qed.

(** X5: a scan probes each element of the port list once: it calls
    [socket.socket] once per element, connects at most once per element,
    makes at most four socket calls per element, and calls [close] at most
    as often as it opened a socket. *)
Theorem run_probes_each_port_once (net : nat -> SocketLayer)
    (sched : list nat) (self : PortScanner) (log : list LogEntry) :
  1 <= threads self -> schedule self sched ->
  exists results self' calls,
    run net sched (self, log) = Some (Returns results, (self', log ++ calls)) /\
    socket_calls calls = length (ports self) /\
    (connect_calls calls <= length (ports self))%nat /\
    (closed calls <= opened calls <= length (ports self))%nat /\
    (length calls <= 4 * length (ports self))%nat.
Proof.
  intros Hthreads Hsched.
  eexists _, _, _. split; [apply run_trace; assumption|].
  pose proof (task_logs_counts net (target self) (timeout self) (ports self)
                sched) as Hcounts.
  rewrite (Permutation_length (omap_lookup_schedule (ports self) sched Hsched))
    in Hcounts.
  exact Hcounts.
Qed.

Lemma run_probes_each_port_once_witness :
  exists results self' calls,
    run flapping [1; 0]%nat (used_scanner, []) =
      Some (Returns results, (self', [] ++ calls)) /\
    socket_calls calls = 2%nat /\
    (connect_calls calls <= 2)%nat /\
    (closed calls <= opened calls <= 2)%nat /\
    (length calls <= 4 * 2)%nat.
Proof.
  apply (run_probes_each_port_once flapping [1; 0]%nat used_scanner []).
  - simpl. lia.
  - unfold schedule. simpl. apply perm_swap.
Defined.

(* ===================================================================== *)
(** * Properties of the display, of the export and of [main] *)
(* ===================================================================== *)

Lemma sorted_Permutation (l1 l2 : list Z) :
  l1 ≡ₚ l2 -> sorted l1 = sorted l2.
Proof.
  intros Hperm. unfold sorted.
  apply (Sorted_unique Z.le); try apply Sorted_merge_sort; try apply _.
  rewrite !merge_sort_Permutation. exact Hperm.
Qed.

Lemma display_results_ext (c : Colorama) (s1 s2 : PortScanner) :
  target s1 = target s2 ->
  open_ports s1 ≡ₚ open_ports s2 ->
  length (filtered_ports s1) = length (filtered_ports s2) ->
  display_results c s1 = display_results c s2.
Proof.
  intros Htarget Hopen Hfiltered. unfold display_results.
  rewrite Htarget, (sorted_Permutation _ _ Hopen).
  apply Permutation_length in Hopen.
  destruct (open_ports s1) as [|x1 o1], (open_ports s2) as [|x2 o2];
    try discriminate Hopen;
    destruct (filtered_ports s1) as [|y1 f1], (filtered_ports s2) as [|y2 f2];
    try discriminate Hfiltered;
    rewrite ?Hopen, ?Hfiltered; reflexivity.
Qed.

(** X6: what is displayed depends on the target, on the open ports whatever
    their order in the bucket, and on the number of filtered ports: closed
    ports are not displayed, nor which ports are filtered. *)
Theorem display_results_depends_on (c : Colorama) (s1 s2 : PortScanner) :
  target s1 = target s2 ->
  open_ports s1 ≡ₚ open_ports s2 ->
  length (filtered_ports s1) = length (filtered_ports s2) ->
  display_results c s1 = display_results c s2.
Proof. apply display_results_ext. Qed.

Lemma display_results_depends_on_witness :
  display_results ansi
    {| target := "192.0.2.7"; ports := [22; 80; 443]; timeout := 1;
       threads := 50; open_ports := [443; 22]; closed_ports := [80];
       filtered_ports := [8080] |} =
  display_results ansi
    {| target := "192.0.2.7"; ports := []; timeout := 5; threads := 1;
       open_ports := [22; 443]; closed_ports := []; filtered_ports := [25] |}.
Proof.
  apply (display_results_depends_on ansi).
  - reflexivity.
  - simpl. apply perm_swap.
  - reflexivity.
Defined.

(** X7: the display is a header, the open ports and the filtered summary: three
    lines, then, when a port is open, a title and one line per entry of
    [open_ports] in ascending order, then, when a port is filtered, two
    lines. *)
Theorem display_results_layout (c : Colorama) (self : PortScanner) :
  exists ps before after,
    display_results c self = before ++ (open_line c <$> ps) ++ after /\
    Sorted Z.le ps /\ ps ≡ₚ open_ports self /\
    length before = (if open_ports self is [] then 3 else 4)%nat /\
    length after = (if filtered_ports self is [] then 0 else 2)%nat.
Proof.
  exists (sorted (open_ports self)).
  assert (Hsorted : Sorted Z.le (sorted (open_ports self)))
    by (apply Sorted_merge_sort; apply _).
  assert (Hperm : sorted (open_ports self) ≡ₚ open_ports self)
    by apply merge_sort_Permutation.
  unfold display_results.
  destruct (open_ports self) as [|x o] eqn:Hopen.
  - eexists [_; _; _], _.
    split; [reflexivity|].
    repeat split; try assumption.
    destruct (filtered_ports self); reflexivity.
  - eexists [_; _; _; _], _.
    split; [reflexivity|].
    repeat split; try assumption.
    destruct (filtered_ports self); reflexivity.
Qed.

(** [main] up to the end of the scan, when the specification parses and the
    pool can be built. *)
Lemma main_after_scan (c : Colorama)
    (dump : list (string * JsonValue) -> string)
    (open_w : string -> outcome unit) (net : nat -> SocketLayer)
    (sched : list nat) (args : Args) (m : Machine) (input : list Z) :
  parse_ports (args_ports args) = Ok input ->
  1 <= args_threads args ->
  sched ≡ₚ seq 0 (length input) ->
  let tgt := args_target args in
  let tmo := args_timeout args in
  let scanner :=
    foldl (step_self net tgt tmo input)
      (init tgt input tmo (args_threads args)) sched in
  let log := sockets m ++ task_logs net tgt tmo input sched in
  let out := stdout m ++ display_results c scanner in
  main c dump open_w net sched args m =
    match truthy (args_output args) with
    | None => Some (Normal, {| sockets := log; stdout := out; files := files m |})
    | Some filename =>
        match open_w filename with
        | Raises e =>
            Some (RaisedExn e,
                  {| sockets := log; stdout := out; files := files m |})
        | Returns _ =>
            Some (Normal,
                  {| sockets := log;
                     stdout := out ++
                       [ newline +:+ Fore_GREEN c +:+ "Results exported to "
                           +:+ filename +:+ Style_RESET_ALL c ];
                     files := <[filename := dump (export_data scanner)]>
                                (files m) |})
        end
    end.
Proof.
  intros Hparse Hthreads Hsched. simpl. unfold main. rewrite Hparse.
  rewrite (run_trace net sched
             (init (args_target args) input (args_timeout args)
                (args_threads args)) (sockets m) Hthreads Hsched).
  simpl. destruct (truthy (args_output args)) as [filename|]; [|reflexivity].
  unfold export_json. destruct (open_w filename) as [[]|e]; reflexivity.
Qed.

(** X8: [main] fails before anything happens when the port specification does
    not parse or the number of threads is below 1: an exception leaves it,
    no socket call was made, nothing was printed and no file written. *)
Theorem main_fails_fast (c : Colorama)
    (dump : list (string * JsonValue) -> string)
    (open_w : string -> outcome unit) (net : nat -> SocketLayer)
    (sched : list nat) (args : Args) (m : Machine) :
  succeeds (parse_ports (args_ports args)) = false \/ args_threads args < 1 ->
  exists exit,
    main c dump open_w net sched args m = Some (exit, m) /\ exit <> Normal.
Proof.
  intros Hbad. unfold main.
  destruct (parse_ports (args_ports args)) as [input|e] eqn:Hparse.
  - destruct Hbad as [Hfails|Hthreads];
      [simpl in Hfails; discriminate Hfails|].
    unfold run, ThreadPoolExecutor; simpl.
    destruct (Z.leb_spec (args_threads args) 0) as [_|?]; [|lia].
    eexists. split; [destruct m; reflexivity|discriminate].
  - eexists. split; [reflexivity|discriminate].
Qed.

Lemma main_fails_fast_witness :
  exists exit,
    main ansi (fun _ => EmptyString) (fun _ => Returns tt) flapping []
      {| args_target := "192.0.2.7"; args_ports := "22,80-90";
         args_timeout := 1; args_threads := 50; args_output := Some "out.json" |}
      {| sockets := []; stdout := []; files := ∅ |} =
      Some (exit, {| sockets := []; stdout := []; files := ∅ |}) /\
    exit <> Normal.
Proof.
  apply (main_fails_fast ansi (fun _ => EmptyString) (fun _ => Returns tt)
           flapping []
           {| args_target := "192.0.2.7"; args_ports := "22,80-90";
              args_timeout := 1; args_threads := 50;
              args_output := Some "out.json" |}
           {| sockets := []; stdout := []; files := ∅ |}).
  left. reflexivity.
Defined.

(** X9: what [main] prints and how it ends do not depend on the order in which
    the pool runs the probes; nor do the names of the files it leaves, and
    the socket calls differ in their order only. *)
Theorem main_schedule_independent (c : Colorama)
    (dump : list (string * JsonValue) -> string)
    (open_w : string -> outcome unit) (net : nat -> SocketLayer)
    (sched1 sched2 : list nat) (args : Args) (m : Machine) (input : list Z) :
  parse_ports (args_ports args) = Ok input ->
  1 <= args_threads args ->
  sched1 ≡ₚ seq 0 (length input) ->
  sched2 ≡ₚ seq 0 (length input) ->
  exists exit m1 m2,
    main c dump open_w net sched1 args m = Some (exit, m1) /\
    main c dump open_w net sched2 args m = Some (exit, m2) /\
    stdout m1 = stdout m2 /\
    sockets m1 ≡ₚ sockets m2 /\
    dom (files m1) = dom (files m2).
Proof.
  intros Hparse Hthreads Hsched1 Hsched2.
  assert (Hperm : sched1 ≡ₚ sched2) by (rewrite Hsched1, Hsched2; reflexivity).
  rewrite (main_after_scan c dump open_w net sched1 args m input)
    by assumption.
  rewrite (main_after_scan c dump open_w net sched2 args m input)
    by assumption.
  simpl.
  pose proof (task_logs_Permutation net (args_target args) (args_timeout args)
                input sched1 sched2 Hperm) as Hlogs.
  assert (Hdisplay :
    display_results c
      (foldl (step_self net (args_target args) (args_timeout args) input)
         (init (args_target args) input (args_timeout args)
            (args_threads args)) sched1) =
    display_results c
      (foldl (step_self net (args_target args) (args_timeout args) input)
         (init (args_target args) input (args_timeout args)
            (args_threads args)) sched2)).
  { apply display_results_ext.
    - destruct (step_self_frame net (args_target args) (args_timeout args)
                  input sched1 (init (args_target args) input
                                  (args_timeout args) (args_threads args)))
        as (-> & _).
      destruct (step_self_frame net (args_target args) (args_timeout args)
                  input sched2 (init (args_target args) input
                                  (args_timeout args) (args_threads args)))
        as (-> & _).
      reflexivity.
    - destruct (step_self_buckets net (args_target args) (args_timeout args)
                  input sched1 (init (args_target args) input
                                  (args_timeout args) (args_threads args)))
        as (-> & _).
      destruct (step_self_buckets net (args_target args) (args_timeout args)
                  input sched2 (init (args_target args) input
                                  (args_timeout args) (args_threads args)))
        as (-> & _).
      apply Permutation_app_head, chosen_Permutation, Hperm.
    - destruct (step_self_buckets net (args_target args) (args_timeout args)
                  input sched1 (init (args_target args) input
                                  (args_timeout args) (args_threads args)))
        as (_ & _ & ->).
      destruct (step_self_buckets net (args_target args) (args_timeout args)
                  input sched2 (init (args_target args) input
                                  (args_timeout args) (args_threads args)))
        as (_ & _ & ->).
      apply Permutation_length, Permutation_app_head, chosen_Permutation, Hperm. }
  rewrite Hdisplay.
  destruct (truthy (args_output args)) as [filename|].
  - destruct (open_w filename) as [[]|e]; eexists _, _, _;
      (split; [reflexivity|]); (split; [reflexivity|]); simpl;
      repeat split; try (apply Permutation_app_head, Hlogs).
    rewrite !dom_insert_L. reflexivity.
  - eexists _, _, _.
    split; [reflexivity|]. split; [reflexivity|]. simpl.
    repeat split. apply Permutation_app_head, Hlogs.
Qed.

Lemma main_schedule_independent_witness :
  exists exit m1 m2,
    main ansi (fun _ => EmptyString) (fun _ => Returns tt) flapping
      [0; 1]%nat
      {| args_target := "192.0.2.7"; args_ports := "80,80";
         args_timeout := 1; args_threads := 50; args_output := Some "out.json" |}
      {| sockets := []; stdout := []; files := ∅ |} = Some (exit, m1) /\
    main ansi (fun _ => EmptyString) (fun _ => Returns tt) flapping
      [1; 0]%nat
      {| args_target := "192.0.2.7"; args_ports := "80,80";
         args_timeout := 1; args_threads := 50; args_output := Some "out.json" |}
      {| sockets := []; stdout := []; files := ∅ |} = Some (exit, m2) /\
    stdout m1 = stdout m2 /\
    sockets m1 ≡ₚ sockets m2 /\
    dom (files m1) = dom (files m2).
Proof.
  apply (main_schedule_independent ansi (fun _ => EmptyString)
           (fun _ => Returns tt) flapping [0; 1]%nat [1; 0]%nat _ _ [80; 80]).
  - reflexivity.
  - simpl. lia.
  - reflexivity.
  - simpl. apply perm_swap.
Defined.

(** X10: [main] writes to no file but the one named by [-o], and to none when
    [-o] is absent or empty; in that case it ends normally. *)
Theorem main_touches_only_output (c : Colorama)
    (dump : list (string * JsonValue) -> string)
    (open_w : string -> outcome unit) (net : nat -> SocketLayer)
    (sched : list nat) (args : Args) (m : Machine) (input : list Z) :
  parse_ports (args_ports args) = Ok input ->
  1 <= args_threads args ->
  sched ≡ₚ seq 0 (length input) ->
  exists exit m',
    main c dump open_w net sched args m = Some (exit, m') /\
    (forall name, args_output args <> Some name ->
                  files m' !! name = files m !! name) /\
    (args_output args = None \/ args_output args = Some EmptyString ->
     exit = Normal /\ files m' = files m).
Proof.
  intros Hparse Hthreads Hsched.
  rewrite (main_after_scan c dump open_w net sched args m input) by assumption.
  simpl. destruct (args_output args) as [[|ch name]|]; simpl.
  - eexists _, _. split; [reflexivity|]. simpl. auto.
  - destruct (open_w (String ch name)) as [[]|e]; eexists _, _;
      (split; [reflexivity|]); simpl; split;
      try (intros [Hnone|Hempty]; discriminate); try reflexivity.
    intros other Hother. apply lookup_insert_ne. congruence.
  - eexists _, _. split; [reflexivity|]. simpl. auto.
Qed.

Lemma main_touches_only_output_witness :
  exists exit m',
    main ansi (fun _ => "{}") (fun _ => Returns tt) flapping [1; 0]%nat
      quiet_args old_machine = Some (exit, m') /\
    (forall name, args_output quiet_args <> Some name ->
                  files m' !! name = files old_machine !! name) /\
    (args_output quiet_args = None \/
     args_output quiet_args = Some EmptyString ->
     exit = Normal /\ files m' = files old_machine).
Proof.
  apply (main_touches_only_output ansi (fun _ => "{}") (fun _ => Returns tt)
           flapping [1; 0]%nat quiet_args old_machine [80; 80]).
  - reflexivity.
  - simpl. lia.
  - simpl. apply perm_swap.
Defined.

(* ===================================================================== *)
(** * Further properties of the port specification *)
(* ===================================================================== *)

(** ** The characters of an integer literal *)

Lemma digit_value_nonneg (c : ascii) : is_digit c = true -> 0 <= digit_value c.
Proof.
  unfold is_digit, digit_value. intros Hc.
  apply andb_true_iff in Hc as [Hlo _]. apply Nat.leb_le in Hlo. lia.
Qed.

Lemma digits_nonneg (s : string) :
  forall acc b z, digits acc b s = Some z -> 0 <= acc -> 0 <= z.
Proof.
  induction s as [|c s IH]; intros acc b z; simpl.
  - destruct b; [|discriminate]. intros [= <-]. auto.
  - destruct (is_digit c) eqn:Hc.
    + intros Hz Hacc. apply (IH _ _ _ Hz).
      pose proof (digit_value_nonneg c Hc). lia.
    + destruct (Ascii.eqb c "_").
      * destruct b; [|discriminate]. apply IH.
      * destruct (b && _); [|discriminate]. intros [= <-]. auto.
Qed.

Lemma all_space_contains (c : ascii) (s : string) :
  all_space s = true -> contains c s = true -> is_space c = true.
Proof.
  induction s as [|c' s IH]; simpl; [discriminate|].
  intros Hall Hc. apply andb_true_iff in Hall as [Hc' Hall].
  apply orb_true_iff in Hc as [Heq|Hc]; [|auto].
  apply Ascii.eqb_eq in Heq. congruence.
Qed.

(** A character that is no digit, underscore or white space stops the
    digits. *)
Lemma digits_rejects (c : ascii) (s : string) :
  is_digit c = false -> Ascii.eqb "_" c = false -> is_space c = false ->
  contains c s = true ->
  forall acc b, digits acc b s = None.
Proof.
  intros Hdigit Hunder Hspace.
  induction s as [|c' s IH]; simpl; [discriminate|].
  intros Hc acc b.
  assert (Hrest : is_digit c' = true \/ Ascii.eqb c' "_" = true ->
                  contains c s = true).
  { intros Hc'. apply orb_true_iff in Hc as [Heq|Hc]; [|assumption].
    apply Ascii.eqb_eq in Heq. subst c'.
    destruct Hc' as [Hc'|Hc']; [congruence|].
    apply Ascii.eqb_eq in Hc'. subst c. discriminate Hunder. }
  destruct (is_digit c') eqn:Hc'; [apply IH; auto|].
  destruct (Ascii.eqb c' "_") eqn:Hu.
  - destruct b; [apply IH; auto|reflexivity].
  - destruct b; [|reflexivity]. simpl.
    destruct (is_space c' && all_space s) eqn:Hall; [|reflexivity].
    assert (is_space c = true); [|congruence].
    apply (all_space_contains c (String c' s)); assumption.
Qed.

Lemma contains_lstrip (c : ascii) (s : string) :
  contains c (lstrip s) = true -> contains c s = true.
Proof.
  induction s as [|c' s IH]; simpl; [auto|].
  destruct (is_space c'); [|auto].
  intros Hc. rewrite (IH Hc). apply orb_true_r.
Qed.

Lemma lstrip_contains (c : ascii) (s : string) :
  is_space c = false -> contains c s = true -> contains c (lstrip s) = true.
Proof.
  intros Hspace. induction s as [|c' s IH]; simpl; [auto|].
  destruct (is_space c') eqn:Hc'; [|auto].
  intros Hc. apply orb_true_iff in Hc as [Heq|Hc]; [|auto].
  apply Ascii.eqb_eq in Heq. congruence.
Qed.

(** [int] after the leading white space, by the first character. *)
Lemma int_unfold (s : string) :
  int s =
    match
      match lstrip s with
      | EmptyString => None
      | String c s' =>
          if Ascii.eqb c "+" then digits 0 false s'
          else if Ascii.eqb c "-" then Z.opp <$> digits 0 false s'
          else digits 0 false (String c s')
      end
    with
    | Some z => Ok z
    | None => Fails (invalid_literal s)
    end.
Proof.
  unfold int. destruct (lstrip s) as [|c s']; [reflexivity|].
  destruct c as [[] [] [] [] [] [] [] []]; reflexivity.
Qed.

Lemma int_rejects (c : ascii) (s : string) :
  is_digit c = false -> Ascii.eqb "_" c = false -> is_space c = false ->
  Ascii.eqb "+" c = false -> Ascii.eqb "-" c = false ->
  contains c s = true ->
  succeeds (int s) = false.
Proof.
  intros Hdigit Hunder Hspace Hplus Hminus Hc.
  apply (lstrip_contains c s Hspace) in Hc.
  rewrite int_unfold.
  destruct (lstrip s) as [|c' s']; [reflexivity|].
  destruct (Ascii.eqb_spec c' "+") as [->|_];
    [|destruct (Ascii.eqb_spec c' "-") as [->|_]].
  - change (contains c (String "+" s'))
      with (Ascii.eqb "+" c || contains c s') in Hc.
    rewrite Hplus in Hc.
    rewrite (digits_rejects c s') by assumption. reflexivity.
  - change (contains c (String "-" s'))
      with (Ascii.eqb "-" c || contains c s') in Hc.
    rewrite Hminus in Hc.
    rewrite (digits_rejects c s') by assumption. reflexivity.
  - rewrite (digits_rejects c (String c' s')) by assumption. reflexivity.
Qed.

Lemma int_nonneg (s : string) (z : Z) :
  contains "-" s = false -> int s = Ok z -> 0 <= z.
Proof.
  intros Hdash. rewrite int_unfold.
  destruct (lstrip s) as [|c s'] eqn:Hs; [discriminate|].
  destruct (Ascii.eqb_spec c "+") as [->|_];
    [|destruct (Ascii.eqb_spec c "-") as [->|_]].
  - destruct (digits 0 false s') as [z'|] eqn:Hz; [|discriminate].
    intros [= <-]. apply (digits_nonneg _ _ _ _ Hz). lia.
  - assert (contains "-" s = true); [|congruence].
    apply contains_lstrip. rewrite Hs. reflexivity.
  - destruct (digits 0 false (String c s')) as [z'|] eqn:Hz; [|discriminate].
    intros [= <-]. apply (digits_nonneg _ _ _ _ Hz). lia.
Qed.

(** ** The pieces of a split *)

Lemma split_nonempty (sep : ascii) (s : string) : split sep s <> [].
Proof.
  destruct s as [|c s]; simpl; [discriminate|].
  destruct (Ascii.eqb c sep); [discriminate|].
  destruct (split sep s); discriminate.
Qed.

(** A piece has no separator, and no character that the whole has not. *)
Lemma split_pieces (sep : ascii) (s : string) (p : string) :
  p ∈ split sep s ->
  contains sep p = false /\
  forall c, contains c p = true -> contains c s = true.
Proof.
  revert p. induction s as [|c' s IH]; intros p; simpl.
  - intros Hp. apply list_elem_of_singleton in Hp as ->. auto.
  - destruct (Ascii.eqb c' sep) eqn:Hsep.
    + intros Hp. apply elem_of_cons in Hp as [->|Hp].
      * split; [reflexivity|discriminate].
      * destruct (IH p Hp) as [Hno Hsub]. split; [assumption|].
        intros c Hc. rewrite (Hsub c Hc). apply orb_true_r.
    + destruct (split sep s) as [|q qs] eqn:Hsplit;
        [destruct (split_nonempty sep s Hsplit)|].
      intros Hp. apply elem_of_cons in Hp as [->|Hp].
      * destruct (IH q ltac:(left)) as [Hno Hsub]. simpl.
        rewrite Hsep, Hno. split; [reflexivity|].
        intros c Hc. apply orb_true_iff in Hc as [Heq|Hc].
        -- rewrite Heq. reflexivity.
        -- rewrite (Hsub c Hc). apply orb_true_r.
      * destruct (IH p ltac:(right; exact Hp)) as [Hno Hsub].
        split; [assumption|].
        intros c Hc. rewrite (Hsub c Hc). apply orb_true_r.
Qed.

(** A character of the whole that is not the separator is in a piece. *)
Lemma split_covers (sep c : ascii) (s : string) :
  Ascii.eqb c sep = false -> contains c s = true ->
  exists p, p ∈ split sep s /\ contains c p = true.
Proof.
  intros Hne. induction s as [|c' s IH]; simpl; [discriminate|].
  intros Hc.
  destruct (Ascii.eqb c' sep) eqn:Hsep.
  - apply Ascii.eqb_eq in Hsep. subst c'.
    rewrite Ascii.eqb_sym, Hne in Hc. simpl in Hc.
    destruct (IH Hc) as (p & Hp & Hcp). exists p. split; [right|]; assumption.
  - destruct (split sep s) as [|q qs] eqn:Hsplit;
      [destruct (split_nonempty sep s Hsplit)|].
    apply orb_true_iff in Hc as [Heq|Hc].
    + exists (String c' q). split; [left|]. simpl. rewrite Heq. reflexivity.
    + destruct (IH Hc) as (p & Hp & Hcp).
      apply elem_of_cons in Hp as [->|Hp].
      * exists (String c' q). split; [left|]. simpl. rewrite Hcp.
        apply orb_true_r.
      * exists p. split; [right|]; assumption.
Qed.

Lemma ints_Forall2 (pieces : list string) (zs : list Z) :
  ints pieces = Ok zs -> Forall2 (fun p z => int p = Ok z) pieces zs.
Proof.
  revert zs. induction pieces as [|p pieces IH]; intros zs; simpl.
  - intros [= <-]. constructor.
  - destruct (int p) as [z|e] eqn:Hp; [|discriminate].
    destruct (ints pieces) as [zs'|e]; [|discriminate].
    intros [= <-]. constructor; auto.
Qed.

Lemma unpack2_Ok (pieces : list string) (start end_ : Z) :
  unpack2 pieces = Ok (start, end_) ->
  exists p1 p2, pieces = [p1; p2] /\ int p1 = Ok start /\ int p2 = Ok end_.
Proof.
  destruct pieces as [|p1 [|p2 [|p3 pieces]]]; simpl; try discriminate.
  - destruct (int p1); discriminate.
  - destruct (int p1) as [z1|] eqn:H1; [|discriminate].
    destruct (int p2) as [z2|] eqn:H2; [|discriminate].
    intros [= <- <-]. eauto.
  - destruct (int p1); [|discriminate].
    destruct (int p2); [|discriminate].
    destruct (int p3); discriminate.
Qed.

(** X11: the parsing never yields a negative port: a minus sign cannot reach
    [int], because the dash is the range separator.  And the port list it
    yields is empty only for a range, one whose end is below its start. *)
Theorem parse_ports_never_negative (arg : string) (input : list Z) :
  parse_ports arg = Ok input ->
  Forall (fun p => 0 <= p) input /\
  (input = [] -> contains "-" arg = true).
Proof.
  unfold parse_ports. destruct (contains "-" arg) eqn:Hdash.
  - destruct (unpack2 (split "-" arg)) as [[start end_]|e] eqn:Hunpack;
      [|discriminate].
    intros [= <-]. split; [|reflexivity].
    apply unpack2_Ok in Hunpack as (p1 & p2 & Hsplit & Hstart & _).
    assert (Hp1 : p1 ∈ split "-" arg) by (rewrite Hsplit; left).
    apply split_pieces in Hp1 as [Hno _].
    pose proof (int_nonneg p1 start Hno Hstart) as Hnonneg.
    unfold range. apply Forall_seqZ. lia.
  - intros Hints. apply ints_Forall2 in Hints. split.
    + apply Forall_forall. intros z Hz.
      apply list_elem_of_lookup in Hz as [i Hz].
      destruct (Forall2_lookup_r _ _ _ _ _ Hints Hz) as (p & Hp & Hint).
      apply (int_nonneg p z); [|assumption].
      apply list_elem_of_lookup_2, (split_pieces "," arg) in Hp as [_ Hsub].
      destruct (contains "-" p) eqn:Hpdash; [|reflexivity].
      rewrite (Hsub "-"%char Hpdash) in Hdash. discriminate Hdash.
    + intros ->. apply Forall2_nil_inv_r in Hints.
      destruct (split_nonempty "," arg Hints).
Qed.

Lemma parse_ports_never_negative_witness :
  Forall (fun p => 0 <= p) [80; 22] /\
  ([80; 22] = [] -> contains "-" "80,22" = true).
Proof.
  apply (parse_ports_never_negative "80,22" [80; 22]). reflexivity.
Defined.

(** X12: a range and a list cannot be combined: a specification with a dash and
    a comma, such as ["22,80-90"], always fails. *)
Theorem parse_ports_rejects_mixed (arg : string) :
  contains "-" arg = true -> contains "," arg = true ->
  succeeds (parse_ports arg) = false.
Proof.
  intros Hdash Hcomma. apply parse_ports_fails_iff. left.
  unfold tokens. rewrite Hdash.
  destruct (split_covers "-" "," arg eq_refl Hcomma) as (p & Hp & Hpc).
  exists p. split; [assumption|].
  apply (int_rejects "," p); auto.
Qed.

Lemma parse_ports_rejects_mixed_witness :
  succeeds (parse_ports "22,80-90") = false.
Proof.
  apply (parse_ports_rejects_mixed "22,80-90"); reflexivity.
Defined.

(** X13: a range ["a-b"] resolves to the ports from [a] to [b] in ascending
    order, each once: [b - a + 1] ports when [a] is at most [b], none
    otherwise. *)
Theorem parse_ports_range_ascending (a b : N) :
  exists input,
    parse_ports (numeral a +:+ String "-" (numeral b)) = Ok input /\
    length input = Z.to_nat (Z.of_N b + 1 - Z.of_N a) /\
    (forall i p, input !! i = Some p <->
                 p = Z.of_N a + Z.of_nat i /\
                 Z.of_nat i < Z.of_N b + 1 - Z.of_N a) /\
    NoDup input /\
    (forall p, p ∈ input <-> Z.of_N a <= p <= Z.of_N b).
Proof.
  eexists. split; [apply parse_ports_range|].
  split; [apply length_seqZ|].
  split; [intros i p; apply lookup_seqZ|].
  split; [apply NoDup_seqZ|].
  intros p. rewrite elem_of_seqZ. lia.
Qed.
